(** * conform-to-valibot: type coercion of form values (src/coercion.ts)

    A shallow embedding of [coerceString], [coerceFile] and
    [enableTypeCoercion].  Schema nodes are JavaScript objects compared by
    identity, so they live in a store and are named by their address; the
    closures handed to valibot's [coerce] are defunctionalised into the
    type [action] and run by [run_action]. *)

From stdpp Require Import gmap strings list.
From Stdlib Require Import ZArith Lia.

Set Warnings "-register-all".

(** ** Runtime values *)

(** The JavaScript values the coercers look at.  A number is kept as the
    64 bits of its IEEE-754 double; a [Date] as its time value in
    milliseconds (a [Date] whose time value is NaN is never built by this
    module, see the date coercer); [VFile] is an instance of the global
    [File] class, [VObject] any other object. *)
Inductive value : Type :=
  | VUndefined
  | VNull
  | VBool (b : bool)
  | VString (s : string)
  | VNumber (bits : Z)
  | VBigInt (z : Z)
  | VDate (time : Z)
  | VFile (name : string) (size : N)
  | VArray (items : list value)
  | VObject (fields : list (string * value)).

(** A call either returns a value or throws. *)
Inductive completion : Type :=
  | Return (v : value)
  | Throw (error : string).

(** [typeof value === "string"] *)
Definition is_string (v : value) : bool :=
  match v with VString _ => true | _ => false end.

(** [Array.isArray(value)] *)
Definition isArray (v : value) : bool :=
  match v with VArray _ => true | _ => false end.

(** [typeof value === "undefined"] *)
Definition is_undefined (v : value) : bool :=
  match v with VUndefined => true | _ => false end.

(** ** Value coercers *)

(** [coerceString(value, transform?)], lines 34-51.  [transform] is [None]
    when the optional parameter is not a function. *)
Definition coerceString (v : value) (transform : option (string -> completion))
  : completion :=
  match v with
  | VString text =>
      if String.eqb text "" then Return VUndefined
      else match transform with
           | None => Return v
           | Some f => f text
           end
  | _ => Return v
  end.

(** [coerceFile(file)], lines 57-68.  [File_defined] is
    [typeof File !== "undefined"] in the running environment. *)
Definition coerceFile (File_defined : bool) (file : value) : value :=
  match file with
  | VFile name size =>
      if File_defined && String.eqb name "" && N.eqb size 0
      then VUndefined else file
  | _ => file
  end.

(** ** The preprocessing steps handed to [coerce] *)

(** One constructor per closure written in [enableTypeCoercion]:
    [ActString] is [(output) => coerceString(output)] (lines 145, 235, ...),
    [ActNumber] line 155, [ActBoolean] line 165, [ActDate] lines 175-187,
    [ActBigint] line 197, [ActArray] lines 207-222. *)
Inductive action : Type :=
  | ActString | ActNumber | ActBoolean | ActDate | ActBigint | ActArray.

Section Steps.
(** The host's built-ins: [Number(text)] as the bits of the double it
    returns, [BigInt(text)] ([None] when it throws a SyntaxError), the time
    value of [new Date(text)] ([None] when it is NaN), and whether the
    global [File] exists. *)
Variable Number : string -> Z.
Variable BigInt : string -> option Z.
Variable Date_parse : string -> option Z.
Variable File_defined : bool.

(** [(text) => (text === "on" ? true : text)] *)
Definition boolean_transform (text : string) : completion :=
  if String.eqb text "on" then Return (VBool true) else Return (VString text).

(** The callback of lines 176-187. *)
Definition date_transform (timestamp : string) : completion :=
  match Date_parse timestamp with
  | None => Return (VString timestamp)
  | Some time => Return (VDate time)
  end.

Definition number_transform (text : string) : completion :=
  Return (VNumber (Number text)).

Definition bigint_transform (text : string) : completion :=
  match BigInt text with
  | Some z => Return (VBigInt z)
  | None => Throw "SyntaxError"
  end.

(** The callback of lines 207-222. *)
Definition array_step (output : value) : completion :=
  if isArray output then Return output
  else if is_undefined output || is_undefined (coerceFile File_defined output)
  then Return (VArray [])
  else Return (VArray [output]).

Definition run_action (act : action) (output : value) : completion :=
  match act with
  | ActString => coerceString output None
  | ActNumber => coerceString output (Some number_transform)
  | ActBoolean => coerceString output (Some boolean_transform)
  | ActDate => coerceString output (Some date_transform)
  | ActBigint => coerceString output (Some bigint_transform)
  | ActArray => array_step output
  end.
End Steps.

(** ** Schema nodes and the store *)

(** A schema node is a JavaScript object; two nodes are the same node when
    they are the same object, so a node is named by its address in the
    store.  The store only grows: an object literal [{...x, f: v}] allocates
    the next address. *)
Abbreviation addr := nat (only parsing).

(** The [_parse] method of a node: the one valibot gave it when the schema
    was built, or the closure [coerce] installs, which runs [act] on the
    input and hands the result to the [_parse] of the node [schema]. *)
Inductive parse_fn : Type :=
  | Native (id : nat)
  | Coerced (act : action) (schema : addr).

(** The own properties of a node.  [type] is [None] when the object has no
    ["type"] property; [wrapped], [entries] and [options] likewise.
    [entries] lists the fields in the order [Object.entries] yields them.
    [rest] stands for every other property ([default], [message], ...),
    which a spread copies as it is. *)
Record node : Type := Node {
  type : option string;
  wrapped : option addr;
  entries : option (list (string * addr));
  options : option (list addr);
  parse : parse_fn;
  rest : list (string * value)
}.

Abbreviation heap := (list node) (only parsing).
Abbreviation cache_map := (gmap nat nat) (only parsing).

(** [{...n, wrapped: w}] and the like. *)
Definition set_wrapped (n : node) (w : addr) : node :=
  Node (type n) (Some w) (entries n) (options n) (parse n) (rest n).
Definition set_entries (n : node) (e : list (string * addr)) : node :=
  Node (type n) (wrapped n) (Some e) (options n) (parse n) (rest n).
Definition set_options (n : node) (o : list addr) : node :=
  Node (type n) (wrapped n) (entries n) (Some o) (parse n) (rest n).
Definition set_parse (n : node) (p : parse_fn) : node :=
  Node (type n) (wrapped n) (entries n) (options n) p (rest n).

Definition alloc (h : heap) (n : node) : heap * addr := (h ++ [n], length h).

(** ** Outcomes *)

(** A call returns, throws a TypeError (reading a property of a value that
    is not an object; an address outside the store stands for such a value),
    or is cut off by the bound on the recursion depth. *)
Inductive outcome (A : Type) : Type :=
  | Done (x : A)
  | TypeError
  | OutOfFuel.
Arguments Done {A} x.
Arguments TypeError {A}.
Arguments OutOfFuel {A}.

#[global] Instance outcome_ret : MRet outcome := fun A x => Done x.
#[global] Instance outcome_bind : MBind outcome := fun A B f m =>
  match m with
  | Done x => f x
  | TypeError => TypeError
  | OutOfFuel => OutOfFuel
  end.

(** [l.map(f)] for an [f] that threads a state: left to right. *)
Fixpoint mapM {St A B : Type} (f : St -> A -> outcome (St * B)) (s : St) (l : list A)
  : outcome (St * list B) :=
  match l with
  | [] => Done (s, [])
  | x :: l' =>
      '(s1, y) ← f s x;
      '(s2, ys) ← mapM f s1 l';
      Done (s2, y :: ys)
  end.

(** ** The schema transformer *)

(** The kinds of the first six branches (lines 132-223), with the step each
    one hands to [coerce]. *)
Definition leaf_action (k : string) : option action :=
  if String.eqb k "string" || String.eqb k "literal" || String.eqb k "enum"
     || String.eqb k "undefined" then Some ActString
  else if String.eqb k "number" then Some ActNumber
  else if String.eqb k "boolean" then Some ActBoolean
  else if String.eqb k "date" then Some ActDate
  else if String.eqb k "bigint" then Some ActBigint
  else if String.eqb k "array" then Some ActArray
  else None.

(** The kinds of lines 224-295. *)
Definition wrapper_kind (k : string) : bool :=
  String.eqb k "optional" || String.eqb k "nullish" || String.eqb k "nullable"
  || String.eqb k "non_optional" || String.eqb k "non_nullish"
  || String.eqb k "non_nullable".

(** [{...wrap, wrapped: schema}] *)
Definition splice (h : heap) (wrap schema : addr) : outcome (heap * addr) :=
  match h !! wrap with
  | Some nw => Done (alloc h (set_wrapped nw schema))
  | None => TypeError
  end.

(** [options?.wrap ? {...options.wrap, wrapped: schema} : schema] *)
Definition wrap_target (h : heap) (wrap : option addr) (schema : addr)
  : outcome (heap * addr) :=
  match wrap with
  | Some w => splice h w schema
  | None => Done (h, schema)
  end.

(** valibot's [coerce(schema, action)]: a new node, the copy of [schema]
    whose [_parse] runs [action] and then the [_parse] of [schema]. *)
Definition coerce (h : heap) (schema : addr) (act : action) : outcome (heap * addr) :=
  match h !! schema with
  | Some n => Done (alloc h (set_parse n (Coerced act schema)))
  | None => TypeError
  end.

(** [coerce(options?.wrap ? {...options.wrap, wrapped: schema} : schema, act)] *)
Definition coerce_wrapped (h : heap) (wrap : option addr) (schema : addr) (act : action)
  : outcome (heap * addr) :=
  '(h1, target) ← wrap_target h wrap schema;
  coerce h1 target act.

Section Body.
(** The recursive calls of the body. *)
Variable rec : heap -> addr -> option addr -> option cache_map
               -> outcome (heap * cache_map * addr).

(** [type.options.map((option) => enableTypeCoercion(option))] *)
Definition map_options (h : heap) (opts : list addr) : outcome (heap * list addr) :=
  mapM (fun h0 option => '(h1, _, r) ← rec h0 option None None; Done (h1, r)) h opts.

(** [Object.entries(type.entries).map(([key, def]) =>
     [key, enableTypeCoercion(def, { cache })])] *)
Definition map_entries (h : heap) (cache : cache_map) (ents : list (string * addr))
  : outcome (heap * cache_map * list (string * addr)) :=
  mapM (fun (s : heap * cache_map) (e : string * addr) =>
          '(h1, cache1, r) ← rec s.1 e.2 None (Some s.2);
          Done ((h1, cache1), (e.1, r)))
       (h, cache) ents.

(** Lines 130-327: the dispatch on [type.type], for a node [n] found at
    [ty].  Returns the store, the cache and [schema].  An object literal
    [{...type, options: ...}] gets its address once its fields are computed;
    the source can tell two nodes apart but cannot see in which order they
    were allocated, and nothing writes to [type] in between. *)
Definition dispatch (h : heap) (ty : addr) (n : node) (k : string)
    (wrap : option addr) (cache : cache_map)
  : outcome (heap * cache_map * addr) :=
  match leaf_action k with
  | Some act =>
      '(h1, schema) ← coerce_wrapped h wrap ty act;
      Done (h1, cache, schema)
  | None =>
      if wrapper_kind k then
        match wrapped n with
        | None => TypeError
        | Some child =>
            '(h1, _, schema) ← rec h child (Some ty) None;
            '(h2, schema) ← coerce_wrapped h1 wrap schema ActString;
            Done (h2, cache, schema)
        end
      else if String.eqb k "union" then
        match options n with
        | None => TypeError
        | Some opts =>
            '(h1, opts') ← map_options h opts;
            let '(h2, schema) := alloc h1 (set_options n opts') in
            '(h3, schema) ← coerce_wrapped h2 wrap schema ActString;
            Done (h3, cache, schema)
        end
      else if String.eqb k "object" then
        match entries n with
        | None => TypeError
        | Some ents =>
            '(h1, cache1, ents') ← map_entries h cache ents;
            let '(h2, shape) := alloc h1 (set_entries n ents') in
            '(h3, schema) ← wrap_target h2 wrap shape;
            Done (h3, cache1, schema)
        end
      else Done (h, cache, ty)
  end.

(** The body of [enableTypeCoercion(type, options)], lines 113-333. *)
Definition body (h : heap) (ty : addr) (wrap : option addr)
    (cache_opt : option cache_map) : outcome (heap * cache_map * addr) :=
  let cache := default ∅ cache_opt in
  match cache !! ty with
  | Some result => Done (h, cache, result)
  | None =>
      match h !! ty with
      | None => TypeError
      | Some n =>
          match type n with
          | None => Done (h, cache, ty)
          | Some k =>
              '(h1, cache1, schema) ← dispatch h ty n k wrap cache;
              Done (h1,
                    if decide (ty = schema) then cache1 else <[ty := schema]> cache1,
                    schema)
          end
      end
  end.
End Body.

(** [enableTypeCoercion(type, { wrap, cache })]; [fuel] bounds the depth of
    the recursion.  The result carries the store and the cache as the call
    leaves them. *)
Fixpoint enableTypeCoercion (fuel : nat) (h : heap) (ty : addr) (wrap : option addr)
    (cache_opt : option cache_map) : outcome (heap * cache_map * addr) :=
  match fuel with
  | 0 => OutOfFuel
  | S fuel' => body (enableTypeCoercion fuel') h ty wrap cache_opt
  end.

(** ** What the transformer may write *)

(** [override m m0]: [m] is the shallow copy of [m0] with one of the four
    fields the transformer writes replaced. *)
Inductive override : node -> node -> Prop :=
  | override_wrapped n w : override (set_wrapped n w) n
  | override_entries n e : override (set_entries n e) n
  | override_options n o : override (set_options n o) n
  | override_parse n p : override (set_parse n p) n.

(** [grows h h']: every node of [h] is still in [h'] at its address, as it
    was, and every node added is an [override] of a node built before it. *)
Definition grows (h h' : heap) : Prop :=
  h `prefix_of` h' ∧
  ∀ i m, length h ≤ i → h' !! i = Some m →
         ∃ j m0, j < i ∧ h' !! j = Some m0 ∧ override m m0.

(** ** Kinds and children *)

(** The kinds [enableTypeCoercion] has a branch for. *)
Definition recognized (k : string) : bool :=
  bool_decide (is_Some (leaf_action k)) || wrapper_kind k
  || String.eqb k "union" || String.eqb k "object".

(** The two pass-through paths: no ["type"] property (line 126), or a kind
    no branch matches. *)
Definition passes_through (n : node) : bool :=
  match type n with
  | None => true
  | Some k => negb (recognized k)
  end.

(** The nodes a call on the node [n] recurses into: the wrapped child of a
    wrapper kind, the options of a union, the entries of an object. *)
Definition children (n : node) : list addr :=
  match type n with
  | None => []
  | Some k =>
      match leaf_action k with
      | Some _ => []
      | None =>
          if wrapper_kind k then option_list (wrapped n)
          else if String.eqb k "union" then default [] (options n)
          else if String.eqb k "object" then (default [] (entries n)).*2
          else []
      end
  end.

(** [edge h a b]: [b] is a child of the node at [a]. *)
Definition edge (h : heap) (a b : addr) : Prop :=
  ∃ n, h !! a = Some n ∧ b ∈ children n.

(** [cache_clear trapped c]: the cache [c] has no replacement for a node of
    the set [trapped]. *)
Definition cache_clear (trapped : addr -> Prop) (c : cache_map) : Prop :=
  ∀ a, trapped a → c !! a = None.

(** A node has the field its kind reads. *)
Definition has_fields (n : node) : Prop :=
  match type n with
  | None => True
  | Some k =>
      (wrapper_kind k = true → is_Some (wrapped n)) ∧
      (String.eqb k "union" = true → is_Some (options n)) ∧
      (String.eqb k "object" = true → is_Some (entries n))
  end.

(** [tree h d a]: the schema under [a] is a tree of height at most [d]. *)
Inductive tree (h : heap) : nat -> addr -> Prop :=
  | tree_node d a n :
      h !! a = Some n → has_fields n →
      (∀ c, c ∈ children n → tree h d c) →
      tree h (S d) a.

(** ** Stacked wrappers *)

(** [stack h a ks core]: from [a], following [wrapped], one meets wrapper
    nodes of the kinds [ks], outermost first, and then the node [core]. *)
Inductive stack (h : heap) : addr -> list string -> addr -> Prop :=
  | stack_core core : stack h core [] core
  | stack_wrapper a n k child ks core :
      h !! a = Some n → type n = Some k → wrapper_kind k = true →
      wrapped n = Some child → stack h child ks core →
      stack h a (k :: ks) core.

(** [fronted h a acts b]: the [_parse] of the node at [a] runs the steps
    [acts], outermost first, and then the [_parse] of the node at [b]. *)
Inductive fronted (h : heap) : addr -> list action -> addr -> Prop :=
  | fronted_nil a : fronted h a [] a
  | fronted_cons a n act inner acts b :
      h !! a = Some n → parse n = Coerced act inner → fronted h inner acts b →
      fronted h a (act :: acts) b.

(** [rebuilt h na r acts c]: the node at [r] is the node [na] with [c] in its
    [wrapped] slot and the steps [acts] in front of the [_parse] of [na]. *)
Definition rebuilt (h : heap) (na : node) (r : addr) (acts : list action) (c : addr)
  : Prop :=
  ∃ s nr, fronted h r acts s ∧ h !! s = Some (set_wrapped na c) ∧
          h !! r = Some nr ∧ set_parse nr (parse na) = set_wrapped na c.


(** ** The file-like values of the spec *)

(** The spec's reading of §4.1 and §8 for [coerceFile]: a value is the
    empty-file sentinel when it is file-like, a [File] or a plain object
    [{name, size, ...}], with an empty name and zero size. *)
Definition spec_empty_file_like (v : value) : bool :=
  match v with
  | VFile name size => String.eqb name "" && N.eqb size 0
  | VObject fields =>
      match list_find (λ f, String.eqb f.1 "name") fields,
            list_find (λ f, String.eqb f.1 "size") fields with
      | Some (_, (_, VString name)), Some (_, (_, VNumber bits)) =>
          String.eqb name "" && Z.eqb bits 0
      | _, _ => false
      end
  | _ => false
  end.

(** The values [coerceFile] turns into [undefined]. *)
Definition empty_File (File_defined : bool) (v : value) : bool :=
  match v with
  | VFile name size => File_defined && String.eqb name "" && N.eqb size 0
  | _ => false
  end.

(** ** Sample schemas and values *)

(** A leaf and a wrapper as valibot builds them. *)
Definition leaf_node (k : string) : node :=
  Node (Some k) None None None (Native 0) [].
Definition wrapper_node (k : string) (child : addr) : node :=
  Node (Some k) (Some child) None None (Native 0) [].
Definition object_node (ents : list (string * addr)) : node :=
  Node (Some "object") None (Some ents) None (Native 0) [].

(** [const o = object({}); o.entries.self = o] *)
Definition self_object : heap := [object_node [("self", 0)]].
(** [const o = optional(string()); o.wrapped = o] *)
Definition self_optional : heap := [wrapper_node "optional" 0].
(** [optional(nullable(picklist([...])))]: the picklist at 0, the nullable
    at 1, the optional at 2. *)
Definition optional_nullable_picklist : heap :=
  [leaf_node "picklist"; wrapper_node "nullable" 0; wrapper_node "optional" 1].
(** [optional(nullable(number()))] *)
Definition optional_nullable_number : heap :=
  [leaf_node "number"; wrapper_node "nullable" 0; wrapper_node "optional" 1].
(** [object({ a: number(), b: string() })]: the object at 2. *)
Definition object_a_b : heap :=
  [leaf_node "number"; leaf_node "string"; object_node [("a", 0); ("b", 1)]].

(** [{ name: "", size: 0 }], an object that is not a [File]. *)
Definition plain_empty_file : value :=
  VObject [("name", VString ""); ("size", VNumber 0)].

(** A host whose [Date] parses one timestamp, for the examples. *)
Definition sample_Date_parse (s : string) : option Z :=
  if String.eqb s "2024-01-01" then Some 1704067200000%Z else None.
Definition sample_Number (s : string) : Z := 0%Z.
Definition sample_BigInt (s : string) : option Z := None.

(** ** Running the steps in front of a node *)

Section RunSteps.
Variable Number : string -> Z.
Variable BigInt : string -> option Z.
Variable Date_parse : string -> option Z.
Variable File_defined : bool.

(** The closure valibot's [coerce] installs is
    [_parse(input) = schema._parse(action(input))]: the steps in front of a
    node run outermost first, each on the value the one before it returned,
    and a step that throws ends the run. *)
Fixpoint run_steps (acts : list action) (input : value) : completion :=
  match acts with
  | [] => Return input
  | act :: rest =>
      match run_action Number BigInt Date_parse File_defined act input with
      | Return v => run_steps rest v
      | Throw e => Throw e
      end
  end.
End RunSteps.

(** ** What the cache knows of a node *)

(** [recognized_at h a]: the node at [a] has a kind with a branch. *)
Definition recognized_at (h : heap) (a : addr) : Prop :=
  ∃ n k, h !! a = Some n ∧ type n = Some k ∧ recognized k = true.

(** [resolved d r h c]: with the store [h] and the cache [c], the node [d]
    stands for [r]: [r] is cached for it, or nothing is cached, [d] passes
    through and [r] is [d] itself. *)
Definition resolved (d r : addr) (h : heap) (c : cache_map) : Prop :=
  c !! d = Some r ∨
  (r = d ∧ c !! d = None ∧ ∃ n, h !! d = Some n ∧ passes_through n = true).

(** ** More sample schemas *)


(** [optional(number())] *)
Definition optional_number : heap := [leaf_node "number"; wrapper_node "optional" 0].
(** [optional(o)] for the object [o] whose entry is [o] itself. *)
Definition optional_self_object : heap :=
  [object_node [("self", 0)]; wrapper_node "optional" 0].

(** ** Copies, field by field *)

(** [coerced_copy m n act inner]: [m] is what [coerce] makes of [n]: its
    [_parse] is the closure that runs [act] and then the [_parse] of the node
    at [inner], and every other property is that of [n]. *)
Definition coerced_copy (m n : node) (act : action) (inner : addr) : Prop :=
  parse m = Coerced act inner ∧ type m = type n ∧ wrapped m = wrapped n ∧
  entries m = entries n ∧ options m = options n ∧ rest m = rest n.

(** [spliced_copy m nw c]: [m] is [{...nw, wrapped: c}]: [c] is in its
    [wrapped] slot and every other property, [_parse] included, is that of
    [nw]. *)
Definition spliced_copy (m nw : node) (c : addr) : Prop :=
  wrapped m = Some c ∧ type m = type nw ∧ entries m = entries nw ∧
  options m = options nw ∧ parse m = parse nw ∧ rest m = rest nw.



(** Two optionals over the object whose entry is the object itself. *)
Definition two_optionals_self_object : heap :=
  [object_node [("self", 0)]; wrapper_node "optional" 0; wrapper_node "optional" 0].

(** ** Proof automation *)

(** Unfold one monadic bind of an [outcome] in hypothesis [H]. *)
Ltac bind_inv H :=
  match type of H with
  | mbind _ ?m = Done _ =>
      let E := fresh "E" in
      destruct m as [[? ?]| |] eqn:E; simpl in H; [|discriminate H|discriminate H]
  end.

(** * Properties *)

(** ** The store only grows *)

Lemma grows_refl (h : heap) : grows h h.
Proof.
  split; [done|]. intros i m Hi Hm.
  apply lookup_lt_Some in Hm. lia.
Qed.

Lemma grows_trans (h1 h2 h3 : heap) : grows h1 h2 → grows h2 h3 → grows h1 h3.
Proof.
  intros [P12 F12] [P23 F23]. split; [by etrans|].
  intros i m Hi Hm.
  destruct (decide (i < length h2)) as [Hlt|Hge].
  - destruct (lookup_lt_is_Some_2 h2 i Hlt) as [m' Hm'].
    pose proof (prefix_lookup_Some _ _ _ _ Hm' P23) as Hm3.
    assert (m' = m) as -> by congruence.
    destruct (F12 i m Hi Hm') as (j & m0 & Hj & Hm0 & Hov).
    exists j, m0. eauto using prefix_lookup_Some.
  - apply F23; [lia|done].
Qed.

Lemma grows_lookup (h h' : heap) (a : addr) (n : node) :
  grows h h' → h !! a = Some n → h' !! a = Some n.
Proof. intros [P _] Ha. by eapply prefix_lookup_Some. Qed.

Lemma grows_length (h h' : heap) : grows h h' → length h ≤ length h'.
Proof. intros [P _]. by apply prefix_length. Qed.

Lemma grows_alloc (h : heap) (j : addr) (m m0 : node) :
  h !! j = Some m0 → override m m0 → grows h (alloc h m).1.
Proof.
  intros Hj Hov. split; [by apply prefix_app_r|].
  intros i m' Hi Hm'. simpl in Hm'.
  pose proof (lookup_lt_Some _ _ _ Hm') as Hlen.
  rewrite length_app in Hlen. simpl in Hlen.
  assert (i = length h) as -> by lia.
  rewrite lookup_app_r, Nat.sub_diag in Hm' by lia. simpl in Hm'.
  injection Hm' as <-.
  exists j, m0. split; [by eapply lookup_lt_Some|].
  split; [|done]. by apply lookup_app_l_Some.
Qed.

Lemma splice_Done (h : heap) (w s : addr) (h' : heap) (r : addr) :
  splice h w s = Done (h', r) →
  ∃ nw, h !! w = Some nw ∧ h' = h ++ [set_wrapped nw s] ∧ r = length h.
Proof.
  unfold splice. destruct (h !! w) as [nw|] eqn:E; [|done].
  unfold alloc. intros [= <- <-]. eauto.
Qed.

Lemma coerce_Done (h : heap) (s : addr) (act : action) (h' : heap) (r : addr) :
  coerce h s act = Done (h', r) →
  ∃ n, h !! s = Some n ∧ h' = h ++ [set_parse n (Coerced act s)] ∧ r = length h.
Proof.
  unfold coerce. destruct (h !! s) as [n|] eqn:E; [|done].
  unfold alloc. intros [= <- <-]. eauto.
Qed.

Lemma splice_grows (h : heap) (w s : addr) (h' : heap) (r : addr) :
  splice h w s = Done (h', r) → grows h h' ∧ r = length h ∧ length h' = S (length h).
Proof.
  intros (nw & Hw & -> & ->)%splice_Done. split_and!; [|done|].
  - apply (grows_alloc h w _ nw Hw). constructor.
  - rewrite length_app. simpl. lia.
Qed.

Lemma coerce_grows (h : heap) (s : addr) (act : action) (h' : heap) (r : addr) :
  coerce h s act = Done (h', r) → grows h h' ∧ r = length h ∧ length h' = S (length h).
Proof.
  intros (n & Hs & -> & ->)%coerce_Done. split_and!; [|done|].
  - apply (grows_alloc h s _ n Hs). constructor.
  - rewrite length_app. simpl. lia.
Qed.

Lemma wrap_target_grows (h : heap) (wrap : option addr) (s : addr) (h' : heap) (r : addr) :
  wrap_target h wrap s = Done (h', r) →
  grows h h' ∧ (wrap = None ∧ h' = h ∧ r = s ∨ is_Some wrap ∧ r = length h ∧ length h' = S (length h)).
Proof.
  destruct wrap as [w|]; simpl.
  - intros (G & -> & L)%splice_grows. split; [done|]. right. eauto.
  - intros [= <- <-]. split; [apply grows_refl|]. by left.
Qed.

Lemma coerce_wrapped_grows (h : heap) (wrap : option addr) (s : addr) (act : action)
    (h' : heap) (r : addr) :
  coerce_wrapped h wrap s act = Done (h', r) →
  grows h h' ∧ length h ≤ r < length h'.
Proof.
  unfold coerce_wrapped. intros H. bind_inv H.
  apply wrap_target_grows in E as [G1 Hc].
  apply coerce_grows in H as (G2 & -> & L).
  split; [by eapply grows_trans|].
  apply grows_length in G1. lia.
Qed.

(** ** [mapM] *)

Lemma mapM_preserves {St A B : Type} (f : St -> A -> outcome (St * B))
    (I : St -> Prop) (l : list A) :
  (∀ s x s' y, I s → x ∈ l → f s x = Done (s', y) → I s') →
  ∀ s s' ys, I s → mapM f s l = Done (s', ys) → I s'.
Proof.
  induction l as [|x l IH]; intros Hf s s' ys Hs H; simpl in H.
  - by injection H as <- <-.
  - bind_inv H. bind_inv H. injection H as <- <-.
    eapply IH; [| |exact E0].
    + intros ? ? ? ? ? ?. apply Hf; [done|by right].
    + eapply Hf; [done|by left|exact E].
Qed.

Lemma mapM_mono {St A B : Type} (f g : St -> A -> outcome (St * B)) (l : list A) :
  (∀ s x r, f s x = Done r → g s x = Done r) →
  ∀ s r, mapM f s l = Done r → mapM g s l = Done r.
Proof.
  intros Hfg. induction l as [|x l IH]; intros s r H; simpl in *; [done|].
  bind_inv H. bind_inv H.
  rewrite (Hfg _ _ _ E). simpl. rewrite (IH _ _ E0). done.
Qed.

Lemma mapM_not_Done {St A B : Type} (f : St -> A -> outcome (St * B))
    (I : St -> Prop) (l : list A) (x : A) :
  x ∈ l →
  (∀ s, I s → ∀ r, f s x ≠ Done r) →
  (∀ s y s' r, I s → y ∈ l → f s y = Done (s', r) → I s') →
  ∀ s, I s → ∀ r, mapM f s l ≠ Done r.
Proof.
  induction l as [|y l IH]; intros Hx Hbad Hpres s Hs r H; [by inversion Hx|].
  simpl in H. bind_inv H. bind_inv H.
  apply elem_of_cons in Hx as [->|Hx].
  - by eapply Hbad.
  - eapply IH; [done|done| |..|exact E0].
    + intros ? ? ? ? ? ?. apply Hpres; [done|by right].
    + eapply Hpres; [done|by left|exact E].
Qed.


(** ** What a returning call leaves behind *)

Section BodyGrows.
Variable rec : heap -> addr -> option addr -> option cache_map
               -> outcome (heap * cache_map * addr).
Hypothesis rec_grows : ∀ h ty wrap co h' c' r,
  rec h ty wrap co = Done (h', c', r) → grows h h'.

Lemma map_options_grows (h : heap) (opts : list addr) (h' : heap) (rs : list addr) :
  map_options rec h opts = Done (h', rs) → grows h h'.
Proof.
  unfold map_options. intros H.
  eapply (mapM_preserves _ (grows h)); [|apply grows_refl|exact H].
  intros s x s' y Hs _ Hf. simpl in Hf.
  destruct (rec s x None None) as [[[h1 c1] r1]| |] eqn:E; simpl in Hf; try done.
  injection Hf as <- <-. eapply grows_trans; eauto.
Qed.

Lemma map_entries_grows (h : heap) (cache : cache_map) (ents : list (string * addr))
    (h' : heap) (cache' : cache_map) (rs : list (string * addr)) :
  map_entries rec h cache ents = Done (h', cache', rs) → grows h h'.
Proof.
  unfold map_entries. intros H.
  apply (mapM_preserves _ (λ s : heap * cache_map, grows h s.1) _) in H;
    [done| |apply grows_refl].
  intros [s c] x [s' c'] y Hs _ Hf. simpl in *.
  destruct (rec s x.2 None (Some c)) as [[[h1 c1] r1]| |] eqn:E; simpl in Hf; try done.
  injection Hf as <- <- <-. eapply grows_trans; eauto.
Qed.

Lemma dispatch_grows (h : heap) (ty : addr) (n : node) (k : string)
    (wrap : option addr) (cache : cache_map) (h' : heap) (c' : cache_map) (r : addr) :
  h !! ty = Some n →
  dispatch rec h ty n k wrap cache = Done (h', c', r) →
  grows h h' ∧ (r = ty ∧ h' = h ∧ c' = cache ∨ length h ≤ r < length h').
Proof.
  intros Hn. unfold dispatch.
  destruct (leaf_action k) as [act|].
  { intros H. bind_inv H. injection H as <- <- <-.
    apply coerce_wrapped_grows in E as [G L]. eauto. }
  destruct (wrapper_kind k).
  { destruct (wrapped n) as [child|]; [|done]. intros H.
    destruct (rec h child (Some ty) None) as [[[h1 c1] r1]| |] eqn:E1;
      simpl in H; try done.
    bind_inv H. injection H as <- <- <-.
    apply rec_grows in E1. apply coerce_wrapped_grows in E as [G L].
    split; [by eapply grows_trans|]. right.
    apply grows_length in E1. lia. }
  destruct (String.eqb k "union").
  { destruct (options n) as [opts|]; [|done]. intros H.
    bind_inv H. apply map_options_grows in E.
    unfold alloc in H. bind_inv H. injection H as <- <- <-.
    apply coerce_wrapped_grows in E0 as [G L].
    assert (grows h (l ++ [set_options n l0])) as G'.
    { eapply grows_trans; [exact E|].
      apply (grows_alloc l ty _ n); [by eapply grows_lookup|constructor]. }
    split; [by eapply grows_trans|]. right.
    apply grows_length in G'. lia. }
  destruct (String.eqb k "object").
  { destruct (entries n) as [ents|]; [|done]. intros H.
    destruct (map_entries rec h cache ents) as [[[h1 c1] rs]| |] eqn:E;
      simpl in H; try done.
    apply map_entries_grows in E.
    unfold alloc in H. bind_inv H. injection H as <- <- <-.
    assert (grows h (h1 ++ [set_entries n rs])) as G'.
    { eapply grows_trans; [exact E|].
      apply (grows_alloc h1 ty _ n); [by eapply grows_lookup|constructor]. }
    apply wrap_target_grows in E0 as [G Hc].
    split; [by eapply grows_trans|]. right.
    apply grows_length in E. rewrite length_app in *. simpl in *.
    destruct Hc as [(_ & -> & ->)|(_ & -> & ->)]; rewrite ?length_app; simpl; lia. }
  intros [= <- <- <-]. split; [apply grows_refl|]. by left.
Qed.

Lemma body_grows (h : heap) (ty : addr) (wrap : option addr) (co : option cache_map)
    (h' : heap) (c' : cache_map) (r : addr) :
  body rec h ty wrap co = Done (h', c', r) →
  grows h h' ∧
  (r = ty ∧ h' = h ∧ is_Some (h !! ty) ∨ default ∅ co !! ty = Some r ∧ h' = h
   ∨ length h ≤ r < length h').
Proof.
  unfold body.
  destruct (default ∅ co !! ty) as [res|] eqn:Hc.
  { intros [= <- <- <-]. split; [apply grows_refl|]. by right; left. }
  destruct (h !! ty) as [n|] eqn:Hn; [|done].
  destruct (type n) as [k|].
  - intros H.
    destruct (dispatch rec h ty n k wrap (default ∅ co)) as [[[h1 c1] s]| |] eqn:E;
      simpl in H; try done.
    injection H as <- <- <-.
    apply dispatch_grows in E as [G Hr]; [|done]. split; [done|].
    destruct Hr as [(-> & -> & _)|Hr]; eauto.
  - intros [= <- <- <-]. split; [apply grows_refl|]. by left.
Qed.
End BodyGrows.

Lemma enableTypeCoercion_grows (fuel : nat) :
  ∀ h ty wrap co h' c' r,
    enableTypeCoercion fuel h ty wrap co = Done (h', c', r) → grows h h'.
Proof.
  induction fuel as [|fuel IH]; intros h ty wrap co h' c' r H; [done|].
  simpl in H. by apply (body_grows _ IH) in H as [G _].
Qed.

Lemma dispatch_unrecognized rec (h : heap) (ty : addr) (n : node) (k : string)
    (wrap : option addr) (cache : cache_map) :
  recognized k = false → dispatch rec h ty n k wrap cache = Done (h, cache, ty).
Proof.
  unfold recognized, dispatch. intros H.
  repeat (apply orb_false_elim in H as [H ?]).
  apply bool_decide_eq_false in H.
  destruct (leaf_action k); [exfalso; eauto|].
  destruct (wrapper_kind k); [done|].
  destruct (String.eqb k "union"); [done|].
  by destruct (String.eqb k "object").
Qed.

Lemma passes_through_returns (fuel : nat) (h : heap) (ty : addr) (n : node)
    (wrap : option addr) (co : option cache_map) :
  h !! ty = Some n → default ∅ co !! ty = None → passes_through n = true →
  enableTypeCoercion (S fuel) h ty wrap co = Done (h, default ∅ co, ty).
Proof.
  intros Hn Hc Hp. simpl. unfold body. rewrite Hc, Hn.
  unfold passes_through in Hp. destruct (type n) as [k|]; [|done].
  apply negb_true_iff in Hp.
  rewrite dispatch_unrecognized by done. simpl.
  by rewrite decide_True.
Qed.

(** More fuel does not change the result of a call that returned. *)
Lemma body_mono rec rec' :
  (∀ h ty wrap co x, rec h ty wrap co = Done x → rec' h ty wrap co = Done x) →
  ∀ h ty wrap co x, body rec h ty wrap co = Done x → body rec' h ty wrap co = Done x.
Proof.
  intros Hrec h ty wrap co x. unfold body.
  destruct (default ∅ co !! ty); [done|].
  destruct (h !! ty) as [n|]; [|done].
  destruct (type n) as [k|]; [|done].
  intros H.
  destruct (dispatch rec h ty n k wrap (default ∅ co)) as [y| |] eqn:E;
    simpl in H; try done.
  enough (dispatch rec' h ty n k wrap (default ∅ co) = Done y) as -> by done.
  revert E. unfold dispatch.
  destruct (leaf_action k); [done|].
  destruct (wrapper_kind k).
  { destruct (wrapped n) as [child|]; [|done]. intros E.
    destruct (rec h child (Some ty) None) as [z| |] eqn:E1; simpl in E; try done.
    by rewrite (Hrec _ _ _ _ _ E1). }
  destruct (String.eqb k "union").
  { destruct (options n) as [opts|]; [|done]. intros E.
    destruct (map_options rec h opts) as [z| |] eqn:E1; simpl in E; try done.
    enough (map_options rec' h opts = Done z) as -> by done.
    revert E1. apply mapM_mono. intros s o r H1.
    destruct (rec s o None None) as [z'| |] eqn:E2; simpl in H1; try done.
    by rewrite (Hrec _ _ _ _ _ E2). }
  destruct (String.eqb k "object"); [|done].
  destruct (entries n) as [ents|]; [|done]. intros E.
  destruct (map_entries rec h (default ∅ co) ents) as [z| |] eqn:E1; simpl in E; try done.
  enough (map_entries rec' h (default ∅ co) ents = Done z) as -> by done.
  revert E1. apply mapM_mono. intros s o r H1.
  destruct (rec s.1 o.2 None (Some s.2)) as [z'| |] eqn:E2; simpl in H1; try done.
  by rewrite (Hrec _ _ _ _ _ E2).
Qed.

Lemma enableTypeCoercion_mono (fuel fuel' : nat) :
  fuel ≤ fuel' →
  ∀ h ty wrap co x,
    enableTypeCoercion fuel h ty wrap co = Done x →
    enableTypeCoercion fuel' h ty wrap co = Done x.
Proof.
  revert fuel'. induction fuel as [|fuel IH]; intros fuel' Hle h ty wrap co x H; [done|].
  destruct fuel' as [|fuel']; [lia|]. simpl in *.
  revert H. apply body_mono. apply IH. lia.
Qed.

(** C10.  [enableTypeCoercion] never writes to a node it was given: when a
    call returns, every node of the store it started from is still there,
    unchanged, and every node it added is a shallow copy of an earlier node
    with one field replaced; the node it returns is the given node itself, a
    cached replacement, or one of the new nodes.  On the pass-through paths
    (no kind, or a kind without a branch; nothing cached for the node) the
    call returns the given node itself and the store is the one it was
    given. *)
Theorem transform_never_mutates (fuel : nat) (h : heap) (ty : addr)
    (wrap : option addr) (co : option cache_map) :
  (∀ h' c' r,
     enableTypeCoercion fuel h ty wrap co = Done (h', c', r) →
     (∀ a n, h !! a = Some n → h' !! a = Some n) ∧
     (∀ i m, length h ≤ i → h' !! i = Some m →
             ∃ j m0, j < i ∧ h' !! j = Some m0 ∧ override m m0) ∧
     (r = ty ∧ h' = h ∧ is_Some (h !! ty) ∨ default ∅ co !! ty = Some r ∧ h' = h
      ∨ length h ≤ r < length h')) ∧
  (∀ n, h !! ty = Some n → default ∅ co !! ty = None → passes_through n = true →
        enableTypeCoercion (S fuel) h ty wrap co = Done (h, default ∅ co, ty)).
Proof.
  split.
  - intros h' c' r H. destruct fuel as [|fuel]; [done|]. simpl in H.
    apply (body_grows _ (enableTypeCoercion_grows fuel)) in H as [[P F] Hr].
    split_and!; [|done|done].
    intros a n Ha. by eapply prefix_lookup_Some.
  - intros n. apply passes_through_returns.
Qed.

Lemma transform_never_mutates_witness :
  ∃ h' c' r,
    enableTypeCoercion 2 object_a_b 2 None None = Done (h', c', r) ∧
    (∀ a n, object_a_b !! a = Some n → h' !! a = Some n) ∧
    (∀ i m, length object_a_b ≤ i → h' !! i = Some m →
            ∃ j m0, j < i ∧ h' !! j = Some m0 ∧ override m m0) ∧
    length object_a_b ≤ r < length h'.
Proof.
  eexists _, _, _. split; [reflexivity|].
  destruct (proj1 (transform_never_mutates 2 object_a_b 2 None None) _ _ _ eq_refl)
    as (Hkeep & Hfresh & _).
  split_and!; [exact Hkeep|exact Hfresh|simpl; lia|simpl; lia].
Defined.

Section Trap.
(** A set of nodes of [h0] each of which has a child in the set. *)
Variable h0 : heap.
Variable trapped : addr -> Prop.
Hypothesis trap : ∀ a, trapped a → ∃ c, edge h0 a c ∧ trapped c.

Lemma cache_clear_empty : cache_clear trapped ∅.
Proof. intros a _. apply lookup_empty. Qed.

Section Step.
Variable rec : heap -> addr -> option addr -> option cache_map
               -> outcome (heap * cache_map * addr).
Hypothesis rec_grows : ∀ h ty wrap co h' c' r,
  rec h ty wrap co = Done (h', c', r) → grows h h'.
Hypothesis rec_stuck : ∀ h ty wrap co,
  grows h0 h → trapped ty → cache_clear trapped (default ∅ co) →
  ∀ x, rec h ty wrap co ≠ Done x.
Hypothesis rec_clear : ∀ h ty wrap co h' c' r,
  grows h0 h → cache_clear trapped (default ∅ co) →
  rec h ty wrap co = Done (h', c', r) → cache_clear trapped c'.

Lemma map_entries_clear (h : heap) (cache : cache_map) (ents : list (string * addr))
    (h' : heap) (cache' : cache_map) (rs : list (string * addr)) :
  grows h0 h → cache_clear trapped cache →
  map_entries rec h cache ents = Done (h', cache', rs) → cache_clear trapped cache'.
Proof.
  intros G C H. unfold map_entries in H.
  apply (mapM_preserves _ (λ s : heap * cache_map, grows h0 s.1 ∧ cache_clear trapped s.2))
    in H; [by destruct H|..|done].
  intros [s c] e [s' c'] y [Gs Cs] _ Hf. simpl in *.
  destruct (rec s e.2 None (Some c)) as [[[h1 c1] r1]| |] eqn:E;
    simpl in Hf; try done.
  injection Hf as <- <- <-. split.
  - eapply grows_trans; eauto.
  - eapply rec_clear; [exact Gs| |exact E]. done.
Qed.

Lemma dispatch_clear (h : heap) (ty : addr) (n : node) (k : string)
    (wrap : option addr) (cache : cache_map) (h' : heap) (c' : cache_map) (r : addr) :
  grows h0 h → cache_clear trapped cache →
  dispatch rec h ty n k wrap cache = Done (h', c', r) → cache_clear trapped c'.
Proof.
  intros G C. unfold dispatch.
  destruct (leaf_action k).
  { intros H. bind_inv H. by injection H as <- <- <-. }
  destruct (wrapper_kind k).
  { destruct (wrapped n) as [child|]; [|done]. intros H.
    destruct (rec h child (Some ty) None) as [[[h1 c1] r1]| |]; simpl in H; try done.
    bind_inv H. by injection H as <- <- <-. }
  destruct (String.eqb k "union").
  { destruct (options n) as [opts|]; [|done]. intros H.
    bind_inv H. unfold alloc in H. bind_inv H. by injection H as <- <- <-. }
  destruct (String.eqb k "object").
  { destruct (entries n) as [ents|]; [|done]. intros H.
    destruct (map_entries rec h cache ents) as [[[h1 c1] rs]| |] eqn:E;
      simpl in H; try done.
    unfold alloc in H. bind_inv H. injection H as <- <- <-.
    by eapply map_entries_clear. }
  by intros [= <- <- <-].
Qed.

Lemma dispatch_stuck (h : heap) (ty : addr) (n : node) (k : string)
    (wrap : option addr) (cache : cache_map) (c : addr) :
  grows h0 h → cache_clear trapped cache →
  type n = Some k → c ∈ children n → trapped c →
  ∀ x, dispatch rec h ty n k wrap cache ≠ Done x.
Proof.
  intros G C Hk Hc Sc x. unfold children in Hc. rewrite Hk in Hc.
  unfold dispatch.
  destruct (leaf_action k); [by inversion Hc|].
  destruct (wrapper_kind k).
  { destruct (wrapped n) as [child|]; [|done].
    apply list_elem_of_singleton in Hc as ->. intros H.
    destruct (rec h child (Some ty) None) as [y| |] eqn:E; simpl in H; try done.
    eapply rec_stuck; [exact G|exact Sc| |exact E]. apply cache_clear_empty. }
  destruct (String.eqb k "union").
  { destruct (options n) as [opts|]; [|by inversion Hc]. simpl in Hc. intros H.
    destruct (map_options rec h opts) as [y| |] eqn:E; simpl in H; try done.
    revert E. apply (mapM_not_Done _ (grows h0) opts c); [done| | |done].
    - intros s Gs r Hr.
      destruct (rec s c None None) as [z| |] eqn:E; simpl in Hr; try done.
      eapply rec_stuck; [exact Gs|exact Sc| |exact E]. apply cache_clear_empty.
    - intros s o s' r Gs _ Hr.
      destruct (rec s o None None) as [[[h1 c1] r1]| |] eqn:E; simpl in Hr; try done.
      injection Hr as <- <-. eapply grows_trans; eauto. }
  destruct (String.eqb k "object"); [|by inversion Hc].
  destruct (entries n) as [ents|]; [|by inversion Hc]. simpl in Hc.
  apply list_elem_of_fmap in Hc as ([key c'] & -> & Hin). simpl in Sc.
  intros H.
  destruct (map_entries rec h cache ents) as [y| |] eqn:E; simpl in H; try done.
  revert E.
  apply (mapM_not_Done _ (λ s : heap * cache_map, grows h0 s.1 ∧ cache_clear trapped s.2)
           ents (key, c')); [done| | |done].
  - intros [s cs] [Gs Cs] r Hr. simpl in *.
    destruct (rec s c' None (Some cs)) as [z| |] eqn:E; simpl in Hr; try done.
    eapply rec_stuck; [exact Gs|exact Sc| |exact E]. done.
  - intros [s cs] e [s' cs'] r [Gs Cs] _ Hr. simpl in *.
    destruct (rec s e.2 None (Some cs)) as [[[h1 c1] r1]| |] eqn:E;
      simpl in Hr; try done.
    injection Hr as <- <- <-. split.
    + eapply grows_trans; eauto.
    + eapply rec_clear; [exact Gs| |exact E]. done.
Qed.

Lemma body_stuck (h : heap) (ty : addr) (wrap : option addr) (co : option cache_map) :
  grows h0 h → trapped ty → cache_clear trapped (default ∅ co) →
  ∀ x, body rec h ty wrap co ≠ Done x.
Proof.
  intros G Sty C x. unfold body. rewrite (C ty Sty).
  destruct (trap ty Sty) as (c & (n & Hn & Hc) & Sc).
  rewrite (grows_lookup _ _ _ _ G Hn).
  destruct (type n) as [k|] eqn:Hk.
  - intros H.
    destruct (dispatch rec h ty n k wrap (default ∅ co)) as [y| |] eqn:E;
      simpl in H; try done.
    revert E. by eapply dispatch_stuck.
  - unfold children in Hc. rewrite Hk in Hc. by inversion Hc.
Qed.

Lemma body_clear (h : heap) (ty : addr) (wrap : option addr) (co : option cache_map)
    (h' : heap) (c' : cache_map) (r : addr) :
  grows h0 h → cache_clear trapped (default ∅ co) →
  body rec h ty wrap co = Done (h', c', r) → cache_clear trapped c'.
Proof.
  intros G C H.
  assert (¬ trapped ty) as Hty.
  { intros Sty. by eapply body_stuck. }
  revert H. unfold body.
  destruct (default ∅ co !! ty); [by intros [= <- <- <-]|].
  destruct (h !! ty) as [n|]; [|done].
  destruct (type n) as [k|]; [|by intros [= <- <- <-]].
  intros H.
  destruct (dispatch rec h ty n k wrap (default ∅ co)) as [[[h1 c1] s]| |] eqn:E;
    simpl in H; try done.
  injection H as <- <- <-.
  apply dispatch_clear in E; [|done..].
  case_decide; [done|].
  intros a Sa. rewrite lookup_insert_ne; [by apply E|].
  intros ->. done.
Qed.
End Step.

Lemma trapped_never_returns (fuel : nat) :
  (∀ h ty wrap co, grows h0 h → trapped ty → cache_clear trapped (default ∅ co) →
                   ∀ x, enableTypeCoercion fuel h ty wrap co ≠ Done x) ∧
  (∀ h ty wrap co h' c' r, grows h0 h → cache_clear trapped (default ∅ co) →
      enableTypeCoercion fuel h ty wrap co = Done (h', c', r) → cache_clear trapped c').
Proof.
  induction fuel as [|fuel [IH1 IH2]]; [by split|].
  split; simpl.
  - apply body_stuck; [apply enableTypeCoercion_grows|done..].
  - apply body_clear; [apply enableTypeCoercion_grows|done..].
Qed.
End Trap.

(** ** What each branch builds *)

Lemma coerce_wrapped_None (h : heap) (s : addr) (n : node) (act : action) :
  h !! s = Some n →
  coerce_wrapped h None s act = Done (h ++ [set_parse n (Coerced act s)], length h).
Proof. intros Hs. unfold coerce_wrapped, coerce. simpl. by rewrite Hs. Qed.

Lemma coerce_wrapped_Some (h : heap) (w : addr) (nw : node) (s : addr) (act : action) :
  h !! w = Some nw →
  coerce_wrapped h (Some w) s act =
  Done (h ++ [set_wrapped nw s;
              set_parse (set_wrapped nw s) (Coerced act (length h))],
        S (length h)).
Proof.
  intros Hw. unfold coerce_wrapped, wrap_target, splice. rewrite Hw.
  unfold alloc, coerce. cbn [mbind outcome_bind].
  rewrite lookup_app_r, Nat.sub_diag by lia. cbn [lookup list_lookup].
  unfold alloc. rewrite <- app_assoc, length_app. simpl. do 3 f_equal. lia.
Qed.

Lemma wrapper_kind_not_leaf (k : string) : wrapper_kind k = true → leaf_action k = None.
Proof.
  unfold wrapper_kind. intros H.
  repeat (apply orb_prop in H as [H|H]); apply String.eqb_eq in H as ->; reflexivity.
Qed.

Lemma leaf_returns (fuel : nat) (h : heap) (ty : addr) (n : node) (k : string)
    (act : action) (co : option cache_map) :
  h !! ty = Some n → type n = Some k → leaf_action k = Some act →
  default ∅ co !! ty = None →
  enableTypeCoercion (S fuel) h ty None co =
  Done (h ++ [set_parse n (Coerced act ty)], <[ty := length h]> (default ∅ co), length h).
Proof.
  intros Hn Hk Ha Hc. simpl. unfold body, dispatch. rewrite Hc, Hn, Hk, Ha.
  rewrite (coerce_wrapped_None _ _ n) by done. simpl.
  apply lookup_lt_Some in Hn. rewrite decide_False by lia. done.
Qed.

Lemma leaf_returns_wrap (fuel : nat) (h : heap) (ty : addr) (n : node) (k : string)
    (act : action) (w : addr) (nw : node) (co : option cache_map) :
  h !! ty = Some n → type n = Some k → leaf_action k = Some act →
  default ∅ co !! ty = None → h !! w = Some nw →
  enableTypeCoercion (S fuel) h ty (Some w) co =
  Done (h ++ [set_wrapped nw ty;
              set_parse (set_wrapped nw ty) (Coerced act (length h))],
        <[ty := S (length h)]> (default ∅ co), S (length h)).
Proof.
  intros Hn Hk Ha Hc Hw. simpl. unfold body, dispatch. rewrite Hc, Hn, Hk, Ha.
  rewrite (coerce_wrapped_Some _ _ nw) by done. simpl.
  apply lookup_lt_Some in Hn. rewrite decide_False by lia. done.
Qed.

(** A call without a cache returns an address of the store it leaves. *)
Lemma result_in_store (fuel : nat) (h : heap) (ty : addr) (wrap : option addr)
    (h' : heap) (c' : cache_map) (r : addr) :
  enableTypeCoercion fuel h ty wrap None = Done (h', c', r) → is_Some (h' !! r).
Proof.
  destruct fuel as [|fuel]; [done|]. simpl. intros H.
  apply (body_grows _ (enableTypeCoercion_grows fuel)) in H as [_ Hr].
  destruct Hr as [(-> & -> & ?)|[[Hc _]|Hr]]; [done| |].
  - simpl in Hc. by rewrite lookup_empty in Hc.
  - apply lookup_lt_is_Some_2. lia.
Qed.

Lemma wrapper_returns (fuel : nat) (h : heap) (ty : addr) (n : node) (k : string)
    (child : addr) (co : option cache_map) (h1 : heap) (c1 : cache_map) (r1 : addr)
    (n1 : node) :
  h !! ty = Some n → type n = Some k → wrapper_kind k = true →
  wrapped n = Some child → default ∅ co !! ty = None →
  enableTypeCoercion fuel h child (Some ty) None = Done (h1, c1, r1) →
  h1 !! r1 = Some n1 →
  enableTypeCoercion (S fuel) h ty None co =
  Done (h1 ++ [set_parse n1 (Coerced ActString r1)],
        <[ty := length h1]> (default ∅ co), length h1).
Proof.
  intros Hn Hk Hw Hchild Hc Hrec Hr1. simpl. unfold body, dispatch.
  rewrite Hc, Hn, Hk, (wrapper_kind_not_leaf _ Hw), Hw, Hchild, Hrec. simpl.
  rewrite (coerce_wrapped_None _ _ n1) by done. simpl.
  apply enableTypeCoercion_grows, grows_length in Hrec.
  apply lookup_lt_Some in Hn. rewrite decide_False by lia. done.
Qed.

Lemma wrapper_returns_wrap (fuel : nat) (h : heap) (ty : addr) (n : node) (k : string)
    (child : addr) (w : addr) (nw : node) (co : option cache_map)
    (h1 : heap) (c1 : cache_map) (r1 : addr) :
  h !! ty = Some n → type n = Some k → wrapper_kind k = true →
  wrapped n = Some child → default ∅ co !! ty = None → h !! w = Some nw →
  enableTypeCoercion fuel h child (Some ty) None = Done (h1, c1, r1) →
  enableTypeCoercion (S fuel) h ty (Some w) co =
  Done (h1 ++ [set_wrapped nw r1;
               set_parse (set_wrapped nw r1) (Coerced ActString (length h1))],
        <[ty := S (length h1)]> (default ∅ co), S (length h1)).
Proof.
  intros Hn Hk Hw Hchild Hc Hnw Hrec. simpl. unfold body, dispatch.
  rewrite Hc, Hn, Hk, (wrapper_kind_not_leaf _ Hw), Hw, Hchild, Hrec. simpl.
  pose proof (enableTypeCoercion_grows _ _ _ _ _ _ _ _ Hrec) as G.
  rewrite (coerce_wrapped_Some _ _ nw) by (by eapply grows_lookup). simpl.
  apply grows_length in G.
  apply lookup_lt_Some in Hn. rewrite decide_False by lia. done.
Qed.






Lemma rebuilt_spliced (h : heap) (nw : node) (c : addr) (act : action) :
  rebuilt (h ++ [set_wrapped nw c;
                 set_parse (set_wrapped nw c) (Coerced act (length h))])
          nw (S (length h)) [act] c.
Proof.
  exists (length h), (set_parse (set_wrapped nw c) (Coerced act (length h))).
  assert (∀ x y : node, (h ++ [x; y]) !! length h = Some x) as L0.
  { intros. by rewrite lookup_app_r, Nat.sub_diag by lia. }
  assert (∀ x y : node, (h ++ [x; y]) !! S (length h) = Some y) as L1.
  { intros. rewrite lookup_app_r by lia.
    by replace (S (length h) - length h) with 1 by lia. }
  split_and!; [|apply L0|apply L1|done].
  eapply fronted_cons; [apply L1|done|constructor].
Qed.

Section Restack.
Variable h : heap.
Variable core : addr.
Variable ncore : node.
Variable kcore : string.
Variable act : action.
Hypothesis core_node : h !! core = Some ncore.
Hypothesis core_kind : type ncore = Some kcore.
Hypothesis core_leaf : leaf_action kcore = Some act.


End Restack.

(** A child of a recognized kind hands back a copy of the pending wrapper. *)
Lemma pending_wrapper_kept (fuel : nat) (h : heap) (c : addr) (nc : node) (kc : string)
    (a : addr) (na : node) (h1 : heap) (c1 : cache_map) (r1 : addr) :
  h !! c = Some nc → type nc = Some kc → recognized kc = true →
  h !! a = Some na →
  enableTypeCoercion fuel h c (Some a) None = Done (h1, c1, r1) →
  ∃ n1 c', h1 !! r1 = Some n1 ∧ set_parse n1 (parse na) = set_wrapped na c'.
Proof.
  intros Hc Hkc Hrec Ha. destruct fuel as [|fuel]; [done|]. simpl.
  unfold body. simpl. rewrite lookup_empty, Hc, Hkc. intros H.
  destruct (dispatch (enableTypeCoercion fuel) h c nc kc (Some a) ∅)
    as [[[h2 c2] s]| |] eqn:E; simpl in H; try done.
  injection H as <- <- <-.
  assert (∀ h0 s0 act h' r, grows h h0 →
            coerce_wrapped h0 (Some a) s0 act = Done (h', r) →
            ∃ n1 c', h' !! r = Some n1 ∧ set_parse n1 (parse na) = set_wrapped na c')
    as Hcw.
  { intros h0 s0 act h' r G Hcw.
    rewrite (coerce_wrapped_Some _ _ na) in Hcw by (by eapply grows_lookup).
    injection Hcw as <- <-.
    destruct (rebuilt_spliced h0 na s0 act) as (? & nr & _ & _ & Hr & Er). eauto. }
  revert E. unfold dispatch, recognized in *.
  destruct (leaf_action kc) as [act|].
  { intros H. bind_inv H. injection H as <- <- <-.
    eapply Hcw; [apply grows_refl|exact E]. }
  destruct (wrapper_kind kc).
  { destruct (wrapped nc) as [child|]; [|done]. intros H.
    destruct (enableTypeCoercion fuel h child (Some c) None)
      as [[[h3 c3] r3]| |] eqn:E1; simpl in H; try done.
    bind_inv H. injection H as <- <- <-.
    eapply Hcw; [eapply enableTypeCoercion_grows, E1|exact E]. }
  destruct (String.eqb kc "union").
  { destruct (options nc) as [opts|]; [|done]. intros H.
    bind_inv H. unfold alloc in H. bind_inv H. injection H as <- <- <-.
    eapply Hcw; [|exact E0].
    eapply grows_trans.
    - eapply map_options_grows; [apply enableTypeCoercion_grows|exact E].
    - apply (grows_alloc l c _ nc); [|constructor].
      eapply grows_lookup; [|exact Hc].
      eapply map_options_grows; [apply enableTypeCoercion_grows|exact E]. }
  destruct (String.eqb kc "object"); [|done].
  destruct (entries nc) as [ents|]; [|done]. intros H.
  destruct (map_entries (enableTypeCoercion fuel) h ∅ ents) as [[[h3 c3] rs]| |] eqn:E;
    simpl in H; try done.
  unfold alloc in H. bind_inv H. injection H as <- <- <-.
  apply splice_Done in E0 as (nw & Hw & -> & ->).
  assert (nw = na) as ->.
  { apply map_entries_grows in E; [|apply enableTypeCoercion_grows].
    assert (grows h (h3 ++ [set_entries nc rs])) as G.
    { eapply grows_trans; [exact E|].
      apply (grows_alloc h3 c _ nc); [by eapply grows_lookup|constructor]. }
    pose proof (grows_lookup _ _ _ _ G Ha). congruence. }
  eexists _, _. split.
  - by rewrite lookup_app_r, Nat.sub_diag by lia.
  - reflexivity.
Qed.

(** ** Properties of the specification *)

(** C4.  [coerceString(value, transform)]: a value that is not a string is
    returned unchanged; the empty string gives [undefined] whatever
    [transform] is; a non-empty string is returned unchanged when no
    transform is supplied, and otherwise the call completes as
    [transform(value)] does. *)
Theorem coerceString_contract (v : value) (transform : option (string -> completion)) :
  (is_string v = false → coerceString v transform = Return v) ∧
  (v = VString "" → coerceString v transform = Return VUndefined) ∧
  (∀ text, v = VString text → text ≠ "" → transform = None →
           coerceString v transform = Return v) ∧
  (∀ text f, v = VString text → text ≠ "" → transform = Some f →
             coerceString v transform = f text).
Proof.
  split_and!.
  - by destruct v.
  - by intros ->.
  - intros text -> Hne ->. simpl. by apply String.eqb_neq in Hne as ->.
  - intros text f -> Hne ->. simpl. by apply String.eqb_neq in Hne as ->.
Qed.

Lemma coerceString_contract_witness :
  is_string (VNumber 7) = false ∧
  coerceString (VNumber 7) (Some boolean_transform) = Return (VNumber 7).
Proof.
  split; [reflexivity|].
  apply (proj1 (coerceString_contract (VNumber 7) (Some boolean_transform))).
  reflexivity.
Defined.

(** C5, as the spec words it, fails: a plain object [{name: "", size: 0}] is
    file-like with an empty name and zero size, and [coerceFile] returns it
    unchanged. *)
Lemma coerceFile_plain_object_unchanged :
  spec_empty_file_like plain_empty_file = true ∧
  coerceFile true plain_empty_file = plain_empty_file ∧
  coerceFile true plain_empty_file ≠ VUndefined.
Proof. split_and!; [reflexivity|reflexivity|discriminate]. Qed.

(** C5, amended.  [coerceFile(value)] returns [undefined] for every instance
    of the global [File] class with an empty name and zero size, when that
    class is defined, and returns every other value unchanged: values that
    are not a [File], a plain object [{name: "", size: 0}] among them, and
    files with a name or a nonzero size. *)
Theorem coerceFile_contract (File_defined : bool) (v : value) :
  (empty_File File_defined v = true → coerceFile File_defined v = VUndefined) ∧
  (empty_File File_defined v = false → coerceFile File_defined v = v).
Proof.
  unfold empty_File, coerceFile. destruct v; try (split; [discriminate|reflexivity]).
  destruct (File_defined && String.eqb name "" && N.eqb size 0); split; done.
Qed.

Lemma coerceFile_contract_witness :
  empty_File true (VFile "" 0) = true ∧ coerceFile true (VFile "" 0) = VUndefined.
Proof.
  split; [reflexivity|].
  apply (proj1 (coerceFile_contract true (VFile "" 0))). reflexivity.
Defined.

(** C6.  [coerceFile] answers [undefined] in place of its argument only for
    an instance of the global [File] with an empty name and zero size; an
    object that is not a [File] is returned unchanged whatever its [name]
    and [size]; and where no global [File] is defined [coerceFile] is the
    identity. *)
Theorem coerceFile_only_File_instances (File_defined : bool) (v : value) :
  (coerceFile File_defined v ≠ v →
   File_defined = true ∧ v = VFile "" 0 ∧ coerceFile File_defined v = VUndefined) ∧
  (coerceFile File_defined v = VUndefined →
   v = VUndefined ∨ File_defined = true ∧ v = VFile "" 0) ∧
  (∀ fields, v = VObject fields → coerceFile File_defined v = v) ∧
  (File_defined = false → coerceFile File_defined v = v).
Proof.
  split_and!.
  - destruct v; simpl; try done.
    destruct File_defined; simpl; [|done].
    destruct (String.eqb_spec name ""); simpl; [|done].
    destruct (N.eqb_spec size 0); [|done]. by subst.
  - destruct v; simpl; try done; [by left|].
    destruct File_defined; simpl; [|done].
    destruct (String.eqb_spec name ""); simpl; [|done].
    destruct (N.eqb_spec size 0); [|done]. subst. by right.
  - by intros fields ->.
  - intros ->. by destruct v.
Qed.

Lemma coerceFile_only_File_instances_witness :
  coerceFile false (VFile "" 0) = VFile "" 0 ∧
  coerceFile true plain_empty_file = plain_empty_file.
Proof.
  split.
  - apply (proj2 (proj2 (proj2 (coerceFile_only_File_instances false (VFile "" 0))))).
    reflexivity.
  - apply (proj1 (proj2 (proj2 (coerceFile_only_File_instances true plain_empty_file)))
             [("name", VString ""); ("size", VNumber 0)]).
    reflexivity.
Defined.

(** A node of a leaf kind comes back with the step of its kind in front. *)
Lemma leaf_attached (fuel : nat) (h : heap) (ty : addr) (n : node) (k : string)
    (act : action) (wrap : option addr) (co : option cache_map) :
  h !! ty = Some n → type n = Some k → leaf_action k = Some act →
  default ∅ co !! ty = None → (∀ w, wrap = Some w → is_Some (h !! w)) →
  ∃ h' c' r m inner,
    enableTypeCoercion (S fuel) h ty wrap co = Done (h', c', r) ∧
    h' !! r = Some m ∧ parse m = Coerced act inner.
Proof.
  intros Hn Hk Ha Hc Hw. destruct wrap as [w|].
  - destruct (Hw w eq_refl) as [nw Hnw].
    eexists _, _, _, _, _. split; [by eapply leaf_returns_wrap|].
    split.
    + rewrite lookup_app_r by lia.
      by replace (S (length h) - length h) with 1 by lia.
    + reflexivity.
  - eexists _, _, _, _, _. split; [by eapply leaf_returns|].
    split.
    + by rewrite lookup_app_r, Nat.sub_diag by lia.
    + reflexivity.
Qed.

(** C7.  An array-kind node comes back with the array step in front, and
    that step maps an array to itself, [undefined] and every value
    [coerceFile] turns into [undefined] to the empty array, and any other
    value to the one-element array holding it. *)
Theorem array_preprocessing_step (fuel : nat) (h : heap) (ty : addr) (n : node)
    (wrap : option addr) (co : option cache_map) :
  h !! ty = Some n → type n = Some "array" →
  default ∅ co !! ty = None → (∀ w, wrap = Some w → is_Some (h !! w)) →
  ∃ h' c' r m inner,
    enableTypeCoercion (S fuel) h ty wrap co = Done (h', c', r) ∧
    h' !! r = Some m ∧ parse m = Coerced ActArray inner ∧
    ∀ Number BigInt Date_parse File_defined output,
      (isArray output = true →
       run_action Number BigInt Date_parse File_defined ActArray output
       = Return output) ∧
      (isArray output = false →
       output = VUndefined ∨ coerceFile File_defined output = VUndefined →
       run_action Number BigInt Date_parse File_defined ActArray output
       = Return (VArray [])) ∧
      (isArray output = false →
       output ≠ VUndefined → coerceFile File_defined output ≠ VUndefined →
       run_action Number BigInt Date_parse File_defined ActArray output
       = Return (VArray [output])).
Proof.
  intros Hn Hk Hc Hw.
  destruct (leaf_attached fuel h ty n "array" ActArray wrap co Hn Hk eq_refl Hc Hw)
    as (h' & c' & r & m & inner & E & Hr & Hp).
  exists h', c', r, m, inner. split_and!; [done..|].
  intros Number BigInt Date_parse File_defined output. simpl. unfold array_step.
  split_and!.
  - by intros ->.
  - intros -> [-> | ->]; [done|]. simpl. by rewrite orb_true_r.
  - intros -> H1 H2.
    assert (is_undefined output = false) as -> by by destruct output.
    assert (is_undefined (coerceFile File_defined output) = false) as ->; [|done].
    by destruct (coerceFile File_defined output).
Qed.

Lemma array_preprocessing_step_witness :
  ∃ h' c' r m inner,
    enableTypeCoercion 1 [leaf_node "array"] 0 None None = Done (h', c', r) ∧
    h' !! r = Some m ∧ parse m = Coerced ActArray inner ∧
    ∀ Number BigInt Date_parse File_defined output,
      (isArray output = true →
       run_action Number BigInt Date_parse File_defined ActArray output
       = Return output) ∧
      (isArray output = false →
       output = VUndefined ∨ coerceFile File_defined output = VUndefined →
       run_action Number BigInt Date_parse File_defined ActArray output
       = Return (VArray [])) ∧
      (isArray output = false →
       output ≠ VUndefined → coerceFile File_defined output ≠ VUndefined →
       run_action Number BigInt Date_parse File_defined ActArray output
       = Return (VArray [output])).
Proof.
  apply (array_preprocessing_step 0 [leaf_node "array"] 0 (leaf_node "array") None None);
    [reflexivity|reflexivity|reflexivity|discriminate].
Defined.

(** C8.  A date-kind node comes back with the date step in front, and that
    step maps the empty string to [undefined], a non-empty string the host
    parses to a valid date to that date, a non-empty string it does not
    parse back to the string itself, and any value that is not a string to
    itself. *)
Theorem date_preprocessing_step (fuel : nat) (h : heap) (ty : addr) (n : node)
    (wrap : option addr) (co : option cache_map) :
  h !! ty = Some n → type n = Some "date" →
  default ∅ co !! ty = None → (∀ w, wrap = Some w → is_Some (h !! w)) →
  ∃ h' c' r m inner,
    enableTypeCoercion (S fuel) h ty wrap co = Done (h', c', r) ∧
    h' !! r = Some m ∧ parse m = Coerced ActDate inner ∧
    ∀ Number BigInt Date_parse File_defined,
      run_action Number BigInt Date_parse File_defined ActDate (VString "")
      = Return VUndefined ∧
      (∀ text time, text ≠ "" → Date_parse text = Some time →
         run_action Number BigInt Date_parse File_defined ActDate (VString text)
         = Return (VDate time)) ∧
      (∀ text, text ≠ "" → Date_parse text = None →
         run_action Number BigInt Date_parse File_defined ActDate (VString text)
         = Return (VString text)) ∧
      (∀ output, is_string output = false →
         run_action Number BigInt Date_parse File_defined ActDate output
         = Return output).
Proof.
  intros Hn Hk Hc Hw.
  destruct (leaf_attached fuel h ty n "date" ActDate wrap co Hn Hk eq_refl Hc Hw)
    as (h' & c' & r & m & inner & E & Hr & Hp).
  exists h', c', r, m, inner. split_and!; [done..|].
  intros Number BigInt Date_parse File_defined. simpl. split_and!.
  - done.
  - intros text time Hne Hd. apply String.eqb_neq in Hne as ->.
    unfold date_transform. by rewrite Hd.
  - intros text Hne Hd. apply String.eqb_neq in Hne as ->.
    unfold date_transform. by rewrite Hd.
  - intros output Hs. by destruct output.
Qed.

Lemma date_preprocessing_step_witness :
  ∃ h' c' r m inner,
    enableTypeCoercion 1 [leaf_node "date"] 0 None None = Done (h', c', r) ∧
    h' !! r = Some m ∧ parse m = Coerced ActDate inner ∧
    run_action sample_Number sample_BigInt sample_Date_parse true ActDate
      (VString "2024-01-01") = Return (VDate 1704067200000) ∧
    run_action sample_Number sample_BigInt sample_Date_parse true ActDate
      (VString "not-a-date") = Return (VString "not-a-date").
Proof.
  destruct (date_preprocessing_step 0 [leaf_node "date"] 0 (leaf_node "date") None None)
    as (h' & c' & r & m & inner & E & Hr & Hp & Hstep);
    [reflexivity|reflexivity|reflexivity|discriminate|].
  destruct (Hstep sample_Number sample_BigInt sample_Date_parse true)
    as (_ & Hvalid & Hinvalid & _).
  exists h', c', r, m, inner. split_and!; [exact E|exact Hr|exact Hp|..].
  - apply (Hvalid "2024-01-01" 1704067200000%Z); [discriminate|reflexivity].
  - apply (Hinvalid "not-a-date"); [discriminate|reflexivity].
Defined.

(** C9.  A boolean-kind node comes back with the boolean step in front, and
    that step maps the string ["on"] to [true], the empty string to
    [undefined], every other non-empty string to itself, and any value that
    is not a string to itself. *)
Theorem boolean_preprocessing_step (fuel : nat) (h : heap) (ty : addr) (n : node)
    (wrap : option addr) (co : option cache_map) :
  h !! ty = Some n → type n = Some "boolean" →
  default ∅ co !! ty = None → (∀ w, wrap = Some w → is_Some (h !! w)) →
  ∃ h' c' r m inner,
    enableTypeCoercion (S fuel) h ty wrap co = Done (h', c', r) ∧
    h' !! r = Some m ∧ parse m = Coerced ActBoolean inner ∧
    ∀ Number BigInt Date_parse File_defined,
      run_action Number BigInt Date_parse File_defined ActBoolean (VString "on")
      = Return (VBool true) ∧
      run_action Number BigInt Date_parse File_defined ActBoolean (VString "")
      = Return VUndefined ∧
      (∀ text, text ≠ "" → text ≠ "on" →
         run_action Number BigInt Date_parse File_defined ActBoolean (VString text)
         = Return (VString text)) ∧
      (∀ output, is_string output = false →
         run_action Number BigInt Date_parse File_defined ActBoolean output
         = Return output).
Proof.
  intros Hn Hk Hc Hw.
  destruct (leaf_attached fuel h ty n "boolean" ActBoolean wrap co Hn Hk eq_refl Hc Hw)
    as (h' & c' & r & m & inner & E & Hr & Hp).
  exists h', c', r, m, inner. split_and!; [done..|].
  intros Number BigInt Date_parse File_defined. simpl. split_and!.
  - done.
  - done.
  - intros text Hne Hon. apply String.eqb_neq in Hne as ->.
    unfold boolean_transform. by apply String.eqb_neq in Hon as ->.
  - intros output Hs. by destruct output.
Qed.

Lemma boolean_preprocessing_step_witness :
  ∃ h' c' r m inner,
    enableTypeCoercion 1 [leaf_node "boolean"] 0 None None = Done (h', c', r) ∧
    h' !! r = Some m ∧ parse m = Coerced ActBoolean inner ∧
    run_action sample_Number sample_BigInt sample_Date_parse true ActBoolean
      (VString "false") = Return (VString "false").
Proof.
  destruct (boolean_preprocessing_step 0 [leaf_node "boolean"] 0 (leaf_node "boolean")
              None None)
    as (h' & c' & r & m & inner & E & Hr & Hp & Hstep);
    [reflexivity|reflexivity|reflexivity|discriminate|].
  destruct (Hstep sample_Number sample_BigInt sample_Date_parse true)
    as (_ & _ & Hother & _).
  exists h', c', r, m, inner. split_and!; [exact E|exact Hr|exact Hp|].
  apply (Hother "false"); discriminate.
Defined.

(** A node reachable from itself lies in a set of nodes each of which has a
    child in the set. *)
Lemma cycle_trap (h : heap) (ty : addr) :
  tc (edge h) ty ty →
  ∀ a, rtc (edge h) a ty → ∃ c, edge h a c ∧ rtc (edge h) c ty.
Proof.
  intros Hcyc a Ha.
  inversion Ha as [|a' b ty' Hab Hb]; subst; [|by exists b].
  inversion Hcyc as [a' b Hab|a' b c Hab Hbc]; subst.
  - by exists ty.
  - exists b. split; [done|]. by apply tc_rtc.
Qed.

(** C1 fails on the code.  For a node reachable from itself through the
    children the transformer recurses into (the wrapped child of a wrapper,
    the options of a union, the entries of an object), no depth of recursion
    is enough for the top-level call to return: the cache is written only
    after the recursion (line 330) and is not handed to the calls on wrapped
    children and options. *)
Theorem cyclic_schema_never_returns (h : heap) (ty : addr) (wrap : option addr)
    (fuel : nat) :
  tc (edge h) ty ty →
  ∀ x, enableTypeCoercion fuel h ty wrap None ≠ Done x.
Proof.
  intros Hcyc.
  apply (proj1 (trapped_never_returns h (λ a, rtc (edge h) a ty)
                  (cycle_trap h ty Hcyc) fuel)).
  - apply grows_refl.
  - apply rtc_refl.
  - intros a _. apply lookup_empty.
Qed.

Lemma self_object_edge : edge self_object 0 0.
Proof. exists (object_node [("self", 0)]). split; [reflexivity|]. apply list_elem_of_here. Defined.

Lemma cyclic_schema_never_returns_witness :
  tc (edge self_object) 0 0 ∧
  ∀ x, enableTypeCoercion 64 self_object 0 None None ≠ Done x.
Proof.
  split.
  - apply tc_once, self_object_edge.
  - apply (cyclic_schema_never_returns self_object 0 None 64).
    apply tc_once, self_object_edge.
Defined.

(** The object whose entry is the object itself: every bound on the depth
    is exhausted. *)
Lemma self_object_out_of_fuel (fuel : nat) (wrap : option addr) (cache : cache_map) :
  cache !! 0 = None →
  enableTypeCoercion fuel self_object 0 wrap (Some cache) = OutOfFuel.
Proof.
  revert wrap cache. induction fuel as [|fuel IH]; intros wrap cache Hc; [done|].
  simpl. unfold body. simpl. rewrite Hc. simpl.
  unfold dispatch, map_entries. simpl. by rewrite IH.
Qed.

Lemma self_object_diverges (fuel : nat) :
  enableTypeCoercion fuel self_object 0 None None = OutOfFuel.
Proof.
  destruct fuel as [|fuel]; [done|].
  simpl. unfold body, dispatch, map_entries. simpl.
  by rewrite self_object_out_of_fuel.
Qed.

(** The wrapper whose wrapped child is the wrapper itself. *)
Lemma self_optional_diverges (fuel : nat) (wrap : option addr) :
  enableTypeCoercion fuel self_optional 0 wrap None = OutOfFuel.
Proof.
  revert wrap. induction fuel as [|fuel IH]; intros wrap; [done|].
  simpl. unfold body, dispatch. simpl. by rewrite IH.
Qed.

(** C3, as stated, fails when a wrapper is pending: the nullable of
    [optional(nullable(picklist))], processed with the optional pending,
    does not come back as the coerced picklist alone but as a node of kind
    optional with the picklist in its [wrapped] slot. *)
Lemma pending_wrapper_not_child_alone :
  ∃ h' c' r m,
    enableTypeCoercion 2 optional_nullable_picklist 1 (Some 2) None = Done (h', c', r) ∧
    h' !! r = Some m ∧
    ¬ coerced_copy m (leaf_node "picklist") ActString 0 ∧
    type m = Some "optional" ∧ wrapped m = Some 0.
Proof.
  eexists _, _, _, _. split; [reflexivity|]. split; [reflexivity|].
  split_and!; [|reflexivity|reflexivity].
  intros (_ & Ht & _). discriminate Ht.
Qed.

(** C3, amended.  A wrapper whose wrapped child passes through (no kind, or
    a kind without a branch) is not rebuilt.  Called without a pending
    wrapper, the call returns the coerced child alone: one new node, the
    child's with [coerceString] over the child for [_parse].  Called with a
    wrapper pending, it returns a copy of that outer wrapper with
    [coerceString] in front and the child itself, as it was, in the
    [wrapped] slot.  Nothing of the wrapper's own node is in either. *)
Theorem wrapper_of_passthrough_child (fuel : nat) (h : heap) (ty : addr) (n : node)
    (k : string) (child : addr) (nc : node) (co : option cache_map) :
  h !! ty = Some n → type n = Some k → wrapper_kind k = true →
  wrapped n = Some child → h !! child = Some nc → passes_through nc = true →
  default ∅ co !! ty = None →
  (∃ m,
     enableTypeCoercion (S (S fuel)) h ty None co
     = Done (h ++ [m], <[ty := length h]> (default ∅ co), length h) ∧
     coerced_copy m nc ActString child) ∧
  ∀ w nw, h !! w = Some nw →
    ∃ s m,
      enableTypeCoercion (S (S fuel)) h ty (Some w) co
      = Done (h ++ [s; m], <[ty := S (length h)]> (default ∅ co), S (length h)) ∧
      spliced_copy s nw child ∧ coerced_copy m s ActString (length h).
Proof.
  intros Hn Hk Hwk Hchild Hnc Hp Hc.
  assert (enableTypeCoercion (S fuel) h child (Some ty) None = Done (h, ∅, child)) as E.
  { by apply (passes_through_returns fuel h child nc (Some ty) None). }
  split.
  - exists (set_parse nc (Coerced ActString child)). split.
    + by eapply wrapper_returns.
    + by repeat split.
  - intros w nw Hw.
    exists (set_wrapped nw child),
           (set_parse (set_wrapped nw child) (Coerced ActString (length h))).
    split_and!.
    + by eapply wrapper_returns_wrap.
    + by repeat split.
    + by repeat split.
Qed.

Lemma wrapper_of_passthrough_child_witness :
  ∃ m,
    enableTypeCoercion 2 optional_nullable_picklist 1 None None
    = Done (optional_nullable_picklist ++ [m], <[1 := 3]> ∅, 3) ∧
    coerced_copy m (leaf_node "picklist") ActString 0.
Proof.
  apply (proj1 (wrapper_of_passthrough_child 0 optional_nullable_picklist 1
                  (wrapper_node "nullable" 0) "nullable" 0 (leaf_node "picklist") None
                  eq_refl eq_refl eq_refl eq_refl eq_refl eq_refl eq_refl)).
Defined.




Lemma mapM_Done {St A B : Type} (f : St -> A -> outcome (St * B))
    (I : St -> Prop) (l : list A) :
  (∀ s x, I s → x ∈ l → ∃ s' y, f s x = Done (s', y) ∧ I s') →
  ∀ s, I s → ∃ s' ys, mapM f s l = Done (s', ys) ∧ I s'.
Proof.
  induction l as [|x l IH]; intros Hf s Hs; simpl.
  - by exists s, [].
  - destruct (Hf s x Hs) as (s1 & y & -> & Hs1); [by left|]. simpl.
    destruct (IH (λ s0 x0 H0 Hin, Hf s0 x0 H0 (list_elem_of_further _ _ _ Hin)) s1 Hs1)
      as (s2 & ys & -> & Hs2).
    simpl. by exists s2, (y :: ys).
Qed.

Lemma coerce_wrapped_returns (h : heap) (wrap : option addr) (s : addr) (act : action) :
  is_Some (h !! s) → (∀ w, wrap = Some w → is_Some (h !! w)) →
  ∃ h' r, coerce_wrapped h wrap s act = Done (h', r) ∧ grows h h'.
Proof.
  intros [n Hs] Hw.
  assert (∃ x, coerce_wrapped h wrap s act = Done x) as [[h' r] E].
  { destruct wrap as [w|].
    - destruct (Hw w eq_refl) as [nw Hnw]. rewrite (coerce_wrapped_Some _ _ nw); eauto.
    - rewrite (coerce_wrapped_None _ _ n); eauto. }
  exists h', r. split; [done|]. by apply coerce_wrapped_grows in E as [G _].
Qed.

(** On a tree of height [d], the call returns within depth [d]. *)
Lemma tree_returns (h0 : heap) (d : nat) :
  ∀ a, tree h0 d a →
  ∀ h wrap co, grows h0 h → (∀ w, wrap = Some w → is_Some (h !! w)) →
    ∃ x, enableTypeCoercion d h a wrap co = Done x.
Proof.
  induction d as [|d IH]; intros a Ht h wrap co G Hw; [by inversion Ht|].
  inversion Ht as [d' a' n Hn Hf Hch]; subst.
  simpl. unfold body.
  destruct (default ∅ co !! a); [eauto|].
  rewrite (grows_lookup _ _ _ _ G Hn).
  unfold has_fields, children in *.
  destruct (type n) as [k|]; [|eauto].
  destruct Hf as (Hfw & Hfu & Hfo).
  assert (is_Some (h !! a)) as Ha
      by (eexists; eapply grows_lookup; eauto).
  enough (∃ x, dispatch (enableTypeCoercion d) h a n k wrap (default ∅ co) = Done x)
    as [[[h1 c1] s] ->] by (simpl; eauto).
  unfold dispatch.
  destruct (leaf_action k) as [act|].
  { destruct (coerce_wrapped_returns h wrap a act Ha Hw) as (h' & r & -> & _).
    simpl. eauto. }
  destruct (wrapper_kind k).
  { destruct (Hfw eq_refl) as [child Hchild]. rewrite Hchild in *.
    destruct (IH child (Hch child (list_elem_of_here _ _)) h (Some a) None G)
      as [[[h1 c1] r1] E1]; [by intros ? [= <-]|].
    rewrite E1. simpl.
    pose proof (enableTypeCoercion_grows _ _ _ _ _ _ _ _ E1) as G1.
    destruct (coerce_wrapped_returns h1 wrap r1 ActString) as (h' & r & -> & _).
    - by eapply result_in_store.
    - intros w Hwrap. destruct (Hw w Hwrap) as [nw Hnw].
      exists nw. by eapply grows_lookup.
    - simpl. eauto. }
  destruct (String.eqb k "union").
  { destruct (Hfu eq_refl) as [opts Hopts]. rewrite Hopts in *. simpl in Hch.
    assert (∃ h1 rs, map_options (enableTypeCoercion d) h opts = Done (h1, rs)
                     ∧ grows h h1) as (h1 & rs & -> & G1).
    { apply (mapM_Done _ (grows h)); [|apply grows_refl].
      intros s o Gs Hin.
      destruct (IH o (Hch o Hin) s None None) as [[[h2 c2] r2] E2];
        [by eapply grows_trans|done|].
      rewrite E2. simpl. exists h2, r2. split; [done|].
      eapply grows_trans; [exact Gs|]. by eapply enableTypeCoercion_grows. }
    simpl. unfold alloc.
    destruct (coerce_wrapped_returns (h1 ++ [set_options n rs]) wrap (length h1) ActString)
      as (h' & r & -> & _).
    - by rewrite lookup_app_r, Nat.sub_diag by lia.
    - intros w Hwrap. destruct (Hw w Hwrap) as [nw Hnw]. exists nw.
      apply lookup_app_l_Some. by eapply grows_lookup.
    - simpl. eauto. }
  destruct (String.eqb k "object"); [|eauto].
  destruct (Hfo eq_refl) as [ents Hents]. rewrite Hents in *. simpl in Hch.
  assert (∃ s' rs, map_entries (enableTypeCoercion d) h (default ∅ co) ents
                   = Done (s', rs) ∧ grows h s'.1) as ([h1 c1] & rs & -> & G1).
  { apply (mapM_Done _ (λ s : heap * cache_map, grows h s.1)); [|apply grows_refl].
    intros [s cs] e Gs Hin. simpl in *.
    destruct (IH e.2 (Hch e.2 (list_elem_of_fmap_2 snd _ _ Hin)) s None (Some cs))
      as [[[h2 c2] r2] E2]; [by eapply grows_trans|done|].
    rewrite E2. simpl. exists (h2, c2), (e.1, r2). split; [done|]. simpl.
    eapply grows_trans; [exact Gs|]. by eapply enableTypeCoercion_grows. }
  simpl in *. unfold alloc.
  destruct wrap as [w|]; simpl; [|eauto].
  destruct (Hw w eq_refl) as [nw Hnw]. unfold splice.
  rewrite (lookup_app_l_Some _ _ _ _ (grows_lookup _ _ _ _ G1 Hnw)). simpl. eauto.
Qed.


(** ** The cache *)

Section CacheStep.
Variable rec : heap -> addr -> option addr -> option cache_map
               -> outcome (heap * cache_map * addr).
Hypothesis rec_grows : ∀ h ty wrap co h' c' r,
  rec h ty wrap co = Done (h', c', r) → grows h h'.
Hypothesis rec_sub : ∀ h ty wrap co h' c' r,
  rec h ty wrap co = Done (h', c', r) → default ∅ co ⊆ c'.
Hypothesis rec_pass : ∀ h ty wrap co h' c' r a n,
  rec h ty wrap co = Done (h', c', r) →
  h !! a = Some n → passes_through n = true → default ∅ co !! a = None →
  c' !! a = None.

Lemma map_entries_sub (h : heap) (cache : cache_map) (ents : list (string * addr))
    (h' : heap) (cache' : cache_map) (rs : list (string * addr)) :
  map_entries rec h cache ents = Done (h', cache', rs) → cache ⊆ cache'.
Proof.
  unfold map_entries. intros H.
  apply (mapM_preserves _ (λ s : heap * cache_map, cache ⊆ s.2)) in H; [done| |done].
  intros [s c] e [s' c'] y Hs _ Hf. simpl in *.
  destruct (rec s e.2 None (Some c)) as [[[h1 c1] r1]| |] eqn:E; simpl in Hf; try done.
  injection Hf as <- <- <-. etrans; [exact Hs|]. by apply rec_sub in E.
Qed.

Lemma map_entries_pass (h : heap) (cache : cache_map) (ents : list (string * addr))
    (h' : heap) (cache' : cache_map) (rs : list (string * addr)) (a : addr) (n : node) :
  map_entries rec h cache ents = Done (h', cache', rs) →
  h !! a = Some n → passes_through n = true → cache !! a = None →
  cache' !! a = None.
Proof.
  unfold map_entries. intros H Ha Hp Hc.
  apply (mapM_preserves _ (λ s : heap * cache_map, grows h s.1 ∧ s.2 !! a = None)) in H;
    [by destruct H| |by split; [apply grows_refl|]].
  intros [s c] e [s' c'] y [Gs Cs] _ Hf. simpl in *.
  destruct (rec s e.2 None (Some c)) as [[[h1 c1] r1]| |] eqn:E; simpl in Hf; try done.
  injection Hf as <- <- <-. split.
  - eapply grows_trans; eauto.
  - eapply rec_pass; [exact E| |exact Hp|exact Cs]. by eapply grows_lookup.
Qed.

Lemma dispatch_cache (h : heap) (ty : addr) (n : node) (k : string)
    (wrap : option addr) (cache : cache_map) (h' : heap) (c' : cache_map) (r : addr) :
  dispatch rec h ty n k wrap cache = Done (h', c', r) →
  cache ⊆ c' ∧
  ∀ a na, h !! a = Some na → passes_through na = true → cache !! a = None →
          c' !! a = None.
Proof.
  unfold dispatch.
  destruct (leaf_action k).
  { intros H. bind_inv H. by injection H as <- <- <-. }
  destruct (wrapper_kind k).
  { destruct (wrapped n) as [child|]; [|done]. intros H.
    destruct (rec h child (Some ty) None) as [[[h1 c1] r1]| |]; simpl in H; try done.
    bind_inv H. by injection H as <- <- <-. }
  destruct (String.eqb k "union").
  { destruct (options n) as [opts|]; [|done]. intros H.
    bind_inv H. unfold alloc in H. bind_inv H. by injection H as <- <- <-. }
  destruct (String.eqb k "object").
  { destruct (entries n) as [ents|]; [|done]. intros H.
    destruct (map_entries rec h cache ents) as [[[h1 c1] rs]| |] eqn:E;
      simpl in H; try done.
    unfold alloc in H. bind_inv H. injection H as <- <- <-. split.
    - by eapply map_entries_sub.
    - intros a na Ha Hp Hc. by eapply map_entries_pass. }
  by intros [= <- <- <-].
Qed.

(** A branch that matched returns a node it built. *)
Lemma dispatch_recognized_fresh (h : heap) (ty : addr) (n : node) (k : string)
    (wrap : option addr) (cache : cache_map) (h' : heap) (c' : cache_map) (r : addr) :
  h !! ty = Some n → recognized k = true →
  dispatch rec h ty n k wrap cache = Done (h', c', r) →
  length h ≤ r < length h'.
Proof.
  intros Hn Hrec H.
  destruct (dispatch_grows rec rec_grows _ _ _ _ _ _ _ _ _ Hn H)
    as [_ [(-> & -> & ->)|Hr]]; [|done].
  exfalso. revert H. unfold dispatch, recognized in *.
  destruct (leaf_action k) as [act|].
  { intros H. bind_inv H. injection H as <- <-.
    apply coerce_wrapped_grows in E as [_ L]. lia. }
  destruct (wrapper_kind k).
  { destruct (wrapped n) as [child|]; [|done]. intros H.
    destruct (rec h child (Some ty) None) as [[[h1 c1] r1]| |] eqn:E1;
      simpl in H; try done.
    bind_inv H. injection H as <- <-.
    apply rec_grows, grows_length in E1.
    apply coerce_wrapped_grows in E as [_ L]. lia. }
  destruct (String.eqb k "union").
  { destruct (options n) as [opts|]; [|done]. intros H.
    bind_inv H. apply (map_options_grows rec rec_grows), grows_length in E.
    unfold alloc in H. bind_inv H. injection H as <- <-.
    apply coerce_wrapped_grows in E0 as [_ L].
    rewrite length_app in L. simpl in L. lia. }
  destruct (String.eqb k "object"); [|done].
  destruct (entries n) as [ents|]; [|done]. intros H.
  destruct (map_entries rec h cache ents) as [[[h1 c1] rs]| |] eqn:E;
    simpl in H; try done.
  apply (map_entries_grows rec rec_grows), grows_length in E.
  unfold alloc in H. bind_inv H. injection H as <- _ <-.
  apply wrap_target_grows in E0 as [G _]. apply grows_length in G.
  rewrite length_app in G. simpl in G. lia.
Qed.

Lemma body_cache (h : heap) (ty : addr) (wrap : option addr) (co : option cache_map)
    (h' : heap) (c' : cache_map) (r : addr) :
  body rec h ty wrap co = Done (h', c', r) →
  default ∅ co ⊆ c' ∧
  ∀ a na, h !! a = Some na → passes_through na = true → default ∅ co !! a = None →
          c' !! a = None.
Proof.
  unfold body.
  destruct (default ∅ co !! ty) eqn:Hc; [by intros [= <- <- <-]|].
  destruct (h !! ty) as [n|] eqn:Hn; [|done].
  destruct (type n) as [k|] eqn:Hk; [|by intros [= <- <- <-]].
  intros H.
  destruct (dispatch rec h ty n k wrap (default ∅ co)) as [[[h1 c1] s]| |] eqn:E;
    simpl in H; try done.
  injection H as <- <- <-.
  destruct (dispatch_cache _ _ _ _ _ _ _ _ _ E) as [Hsub Hpass].
  case_decide as Hs; [done|]. split.
  - by apply insert_subseteq_r.
  - intros a na Ha Hp Hca.
    destruct (decide (a = ty)) as [->|Hne].
    + exfalso. assert (na = n) as -> by congruence.
      unfold passes_through in Hp. rewrite Hk in Hp. apply negb_true_iff in Hp.
      rewrite dispatch_unrecognized in E by done. by injection E as <- <- <-.
    + rewrite lookup_insert_ne by done. by eapply Hpass.
Qed.

Lemma body_resolved (h : heap) (ty : addr) (wrap : option addr) (co : option cache_map)
    (h' : heap) (c' : cache_map) (r : addr) :
  body rec h ty wrap co = Done (h', c', r) →
  c' !! ty = Some r ∧ (default ∅ co !! ty = Some r ∧ h' = h ∨ length h ≤ r < length h')
  ∨ (r = ty ∧ h' = h ∧ c' = default ∅ co ∧ resolved ty ty h (default ∅ co)
     ∧ default ∅ co !! ty = None).
Proof.
  unfold body.
  destruct (default ∅ co !! ty) eqn:Hc; [intros [= <- <- <-]; left; eauto|].
  destruct (h !! ty) as [n|] eqn:Hn; [|done].
  destruct (type n) as [k|] eqn:Hk.
  - intros H.
    destruct (dispatch rec h ty n k wrap (default ∅ co)) as [[[h1 c1] s]| |] eqn:E;
      simpl in H; try done.
    injection H as <- <- <-.
    destruct (recognized k) eqn:Hrec.
    + left. pose proof (dispatch_recognized_fresh _ _ _ _ _ _ _ _ _ Hn Hrec E) as L.
      apply lookup_lt_Some in Hn.
      rewrite decide_False by lia. rewrite lookup_insert_eq. eauto.
    + right. rewrite dispatch_unrecognized in E by done. injection E as <- <- <-.
      rewrite decide_True by done. split_and!; try done.
      right. split_and!; try done. exists n. split; [done|].
      unfold passes_through. by rewrite Hk, Hrec.
  - intros [= <- <- <-]. right. split_and!; try done.
    right. split_and!; try done. exists n. split; [done|].
    unfold passes_through. by rewrite Hk.
Qed.
End CacheStep.

Lemma enableTypeCoercion_cache (fuel : nat) :
  ∀ h ty wrap co h' c' r,
    enableTypeCoercion fuel h ty wrap co = Done (h', c', r) →
    default ∅ co ⊆ c' ∧
    ∀ a na, h !! a = Some na → passes_through na = true → default ∅ co !! a = None →
            c' !! a = None.
Proof.
  induction fuel as [|fuel IH]; intros h ty wrap co h' c' r H; [done|].
  simpl in H. revert H. apply body_cache.
  - apply enableTypeCoercion_grows.
  - intros. by eapply IH.
  - intros ? ? ? ? ? ? ? a na H. by eapply (IH _ _ _ _ _ _ _ H).
Qed.

Lemma enableTypeCoercion_resolved (fuel : nat) (h : heap) (ty : addr)
    (wrap : option addr) (co : option cache_map) (h' : heap) (c' : cache_map) (r : addr) :
  enableTypeCoercion fuel h ty wrap co = Done (h', c', r) →
  c' !! ty = Some r ∧ (default ∅ co !! ty = Some r ∧ h' = h ∨ length h ≤ r < length h')
  ∨ (r = ty ∧ h' = h ∧ c' = default ∅ co ∧ resolved ty ty h (default ∅ co)
     ∧ default ∅ co !! ty = None).
Proof.
  destruct fuel as [|fuel]; [done|]. simpl.
  apply body_resolved, enableTypeCoercion_grows.
Qed.

(** X1.  The cache only gains entries: what was cached before a call is
    cached after it with the same replacement; a node that passes through
    gets no entry; and whenever the call returns something else than the
    node it was given, that replacement is cached for the node. *)
Theorem cache_only_gains (fuel : nat) (h : heap) (ty : addr) (wrap : option addr)
    (co : option cache_map) (h' : heap) (c' : cache_map) (r : addr) :
  enableTypeCoercion fuel h ty wrap co = Done (h', c', r) →
  (∀ a ra, default ∅ co !! a = Some ra → c' !! a = Some ra) ∧
  (∀ a na, h !! a = Some na → passes_through na = true →
           default ∅ co !! a = None → c' !! a = None) ∧
  (r ≠ ty → c' !! ty = Some r).
Proof.
  intros H. destruct (enableTypeCoercion_cache _ _ _ _ _ _ _ _ H) as [Hsub Hpass].
  split_and!.
  - intros a ra Ha. by eapply lookup_weaken.
  - exact Hpass.
  - intros Hne.
    by destruct (enableTypeCoercion_resolved _ _ _ _ _ _ _ _ H) as [[? _]|(? & _)].
Qed.

Lemma cache_only_gains_witness :
  ∃ h' c' r,
    enableTypeCoercion 2 object_a_b 2 None (Some {[7 := 9]}) = Done (h', c', r) ∧
    c' !! 7 = Some 9 ∧ r ≠ 2 ∧ c' !! 2 = Some r.
Proof.
  eexists _, _, _. split; [vm_compute; reflexivity|].
  edestruct (cache_only_gains 2 object_a_b 2 None (Some {[7 := 9]}))
    as (Hkeep & _ & Hset); [vm_compute; reflexivity|].
  split_and!.
  - apply Hkeep. reflexivity.
  - discriminate.
  - apply Hset. discriminate.
Defined.

(** X2.  Calling again with the cache the first call left: whatever the
    pending wrapper of the second call, it returns the same replacement and
    leaves the store and the cache as they are. *)
Theorem second_call_same_replacement (fuel fuel' : nat) (h : heap) (ty : addr)
    (wrap wrap' : option addr) (co : option cache_map)
    (h' : heap) (c' : cache_map) (r : addr) :
  enableTypeCoercion fuel h ty wrap co = Done (h', c', r) →
  enableTypeCoercion (S fuel') h' ty wrap' (Some c') = Done (h', c', r).
Proof.
  intros H.
  destruct (enableTypeCoercion_resolved _ _ _ _ _ _ _ _ H)
    as [[Hc _]|(-> & -> & -> & Hres & Hmiss)].
  - simpl. unfold body. simpl. by rewrite Hc.
  - destruct Hres as [Hhit|(_ & _ & n & Hn & Hp)]; [congruence|].
    by apply (passes_through_returns fuel' h ty n wrap' (Some (default ∅ co))).
Qed.

Lemma second_call_same_replacement_witness :
  ∃ h' c' r,
    enableTypeCoercion 2 optional_number 1 None None = Done (h', c', r) ∧
    enableTypeCoercion 1 h' 1 (Some 0) (Some c') = Done (h', c', r).
Proof.
  eexists _, _, _. split; [reflexivity|].
  apply (second_call_same_replacement 2 0 optional_number 1 None (Some 0) None).
  reflexivity.
Defined.

Lemma recognized_fresh (fuel : nat) (h : heap) (ty : addr) (wrap : option addr)
    (co : option cache_map) (h' : heap) (c' : cache_map) (r : addr) :
  recognized_at h ty → default ∅ co !! ty = None →
  enableTypeCoercion fuel h ty wrap co = Done (h', c', r) →
  length h ≤ r < length h' ∧ c' !! ty = Some r.
Proof.
  intros (n & k & Hn & Hk & Hrec) Hmiss H.
  destruct (enableTypeCoercion_resolved _ _ _ _ _ _ _ _ H)
    as [[Hc [[Hhit _]|Hr]]|(-> & -> & -> & Hres & _)]; [congruence|done|].
  destruct Hres as [Hhit|(_ & _ & n' & Hn' & Hp)]; [congruence|].
  assert (n' = n) as -> by congruence.
  unfold passes_through in Hp. by rewrite Hk, Hrec in Hp.
Qed.

(** When the call returns: a node of a kind with a branch is never handed back: when nothing
    is cached for it the call returns a node it built, records it in the
    cache for the node, and leaves the node itself in the store as it was. *)
Lemma recognized_node_replaced_returned (fuel : nat) (h : heap) (ty : addr) (n : node)
    (k : string) (wrap : option addr) (co : option cache_map)
    (h' : heap) (c' : cache_map) (r : addr) :
  h !! ty = Some n → type n = Some k → recognized k = true →
  default ∅ co !! ty = None →
  enableTypeCoercion fuel h ty wrap co = Done (h', c', r) →
  length h ≤ r < length h' ∧ r ≠ ty ∧ c' !! ty = Some r ∧ h' !! ty = Some n.
Proof.
  intros Hn Hk Hrec Hmiss H.
  destruct (recognized_fresh _ _ _ _ _ _ _ _ (ex_intro _ n (ex_intro _ k
              (conj Hn (conj Hk Hrec)))) Hmiss H) as [Hr Hc].
  split_and!; [lia|lia| |done|].
  - apply lookup_lt_Some in Hn. lia.
  - eapply grows_lookup; [|exact Hn]. by eapply enableTypeCoercion_grows.
Qed.


(** ** Entries and options *)

Lemma map_entries_cons_inv rec (h : heap) (c : cache_map) (e : string * addr)
    (l : list (string * addr)) (h' : heap) (c' : cache_map) (rs : list (string * addr)) :
  map_entries rec h c (e :: l) = Done (h', c', rs) →
  ∃ h1 c1 r1 rs',
    rec h e.2 None (Some c) = Done (h1, c1, r1) ∧
    map_entries rec h1 c1 l = Done (h', c', rs') ∧ rs = (e.1, r1) :: rs'.
Proof.
  unfold map_entries. simpl. intros H.
  destruct (rec h e.2 None (Some c)) as [[[h1 c1] r1]| |] eqn:E; simpl in H; try done.
  bind_inv H. destruct p as [h2 c2]. injection H as <- <- <-.
  by exists h1, c1, r1, l0.
Qed.


Lemma map_entries_keys rec (l : list (string * addr)) :
  ∀ h c h' c' rs, map_entries rec h c l = Done (h', c', rs) → rs.*1 = l.*1.
Proof.
  induction l as [|e l IH]; intros h c h' c' rs H.
  - unfold map_entries in H. simpl in H. by injection H as <- <- <-.
  - apply map_entries_cons_inv in H as (h1 & c1 & r1 & rs' & _ & H & ->).
    simpl. f_equal. eauto.
Qed.

Lemma resolved_kept (fuel : nat) (h : heap) (c : cache_map) (x : addr)
    (wrap : option addr) (h1 : heap) (c1 : cache_map) (r1 d r : addr) :
  enableTypeCoercion fuel h x wrap (Some c) = Done (h1, c1, r1) →
  resolved d r h c →
  resolved d r h1 c1 ∧ (x = d → r1 = r).
Proof.
  intros H Hres. split.
  - destruct (enableTypeCoercion_cache _ _ _ _ _ _ _ _ H) as [Hsub Hpass].
    destruct Hres as [Hc|(-> & Hc & n & Hn & Hp)].
    + left. by eapply lookup_weaken.
    + right. split_and!; [done|by eapply Hpass|].
      exists n. split; [|done].
      eapply grows_lookup; [|exact Hn]. by eapply enableTypeCoercion_grows.
  - intros ->. destruct fuel as [|fuel]; [done|].
    destruct Hres as [Hc|(-> & Hc & n & Hn & Hp)].
    + simpl in H. unfold body in H. simpl in H. rewrite Hc in H. congruence.
    + rewrite (passes_through_returns fuel h d n wrap (Some c)) in H by done.
      congruence.
Qed.


Lemma map_entries_occurrences (fuel : nat) (l : list (string * addr)) :
  ∀ h c h' c' rs d r,
    resolved d r h c →
    map_entries (enableTypeCoercion fuel) h c l = Done (h', c', rs) →
    resolved d r h' c' ∧
    ∀ j key, l !! j = Some (key, d) → rs !! j = Some (key, r).
Proof.
  induction l as [|e l IH]; intros h c h' c' rs d r Hres H.
  - unfold map_entries in H. simpl in H. injection H as <- <- <-. by split.
  - apply map_entries_cons_inv in H as (h1 & c1 & r1 & rs' & E & H & ->).
    destruct (resolved_kept _ _ _ _ _ _ _ _ d r E Hres) as [Hres1 Heq].
    destruct (IH _ _ _ _ _ d r Hres1 H) as [Hres' Hall].
    split; [done|]. intros [|j] key Hj; simpl in *.
    + injection Hj as ->. simpl in *. by rewrite Heq.
    + by apply Hall.
Qed.







(** When the call returns: an object comes back as a copy of itself with new entries: the
    same field names in the same order, the [_parse] of the object itself
    (no step is put in front of an object), and, when a wrapper is pending,
    inside a copy of that wrapper that keeps the wrapper's [_parse].  A
    field whose node passes through, with nothing cached for it, holds that
    very node in the copy. *)
Lemma object_rebuilt_returned (fuel : nat) (h : heap) (ty : addr) (n : node)
    (ents : list (string * addr)) (wrap : option addr) (co : option cache_map)
    (h' : heap) (c' : cache_map) (r : addr) :
  h !! ty = Some n → type n = Some "object" → entries n = Some ents →
  default ∅ co !! ty = None →
  enableTypeCoercion fuel h ty wrap co = Done (h', c', r) →
  ∃ ents' shape,
    h' !! shape = Some (set_entries n ents') ∧
    ents'.*1 = ents.*1 ∧
    (wrap = None → r = shape) ∧
    (∀ w nw, wrap = Some w → h !! w = Some nw →
             h' !! r = Some (set_wrapped nw shape)) ∧
    ∀ i key d nd, ents !! i = Some (key, d) → h !! d = Some nd →
      passes_through nd = true → default ∅ co !! d = None →
      ents' !! i = Some (key, d).
Proof.
  intros Hn Hk He Hc H. destruct fuel as [|fuel]; [done|].
  simpl in H. unfold body, dispatch in H. rewrite Hc, Hn, Hk, He in H. simpl in H.
  destruct (map_entries (enableTypeCoercion fuel) h (default ∅ co) ents)
    as [[[h1 c1] rs]| |] eqn:E; simpl in H; try done.
  pose proof (map_entries_grows _ (enableTypeCoercion_grows fuel) _ _ _ _ _ _ E) as G.
  assert ((h1 ++ [set_entries n rs]) !! length h1 = Some (set_entries n rs)) as Hshape.
  { by rewrite lookup_app_r, Nat.sub_diag by lia. }
  exists rs, (length h1).
  assert (∀ i key d nd, ents !! i = Some (key, d) → h !! d = Some nd →
            passes_through nd = true → default ∅ co !! d = None →
            rs !! i = Some (key, d)) as Hpass.
  { intros i key d nd Hi Hd Hp Hcd.
    destruct (map_entries_occurrences _ _ _ _ _ _ _ d d
                (or_intror (conj eq_refl (conj Hcd (ex_intro _ nd (conj Hd Hp))))) E)
      as [_ Hall].
    by apply Hall. }
  destruct wrap as [w|]; simpl in H.
  - unfold splice in H.
    destruct ((h1 ++ [set_entries n rs]) !! w) as [nw|] eqn:Hw; simpl in H; [|done].
    injection H as <- <- <-.
    split_and!; [by apply lookup_app_l_Some|by eapply map_entries_keys|done| |done].
    intros w' nw' [= <-] Hw0.
    pose proof (grows_lookup _ _ _ _ G Hw0) as Hw1.
    apply (lookup_app_l_Some _ [set_entries n rs]) in Hw1.
    assert (nw' = nw) as -> by congruence.
    by rewrite lookup_app_r, Nat.sub_diag by lia.
  - injection H as <- <- <-.
    split_and!; [done|by eapply map_entries_keys|done|done|done].
Qed.





(** ** The steps *)

(** X7.  A number-kind node comes back with the number step in front: the
    empty string gives [undefined] without [Number] being called, a
    non-empty string gives [Number(text)] whatever that is, and a value that
    is not a string is returned unchanged. *)
Theorem number_preprocessing_step (fuel : nat) (h : heap) (ty : addr) (n : node)
    (wrap : option addr) (co : option cache_map) :
  h !! ty = Some n → type n = Some "number" →
  default ∅ co !! ty = None → (∀ w, wrap = Some w → is_Some (h !! w)) →
  ∃ h' c' r m inner,
    enableTypeCoercion (S fuel) h ty wrap co = Done (h', c', r) ∧
    h' !! r = Some m ∧ parse m = Coerced ActNumber inner ∧
    ∀ Number BigInt Date_parse File_defined,
      run_action Number BigInt Date_parse File_defined ActNumber (VString "")
      = Return VUndefined ∧
      (∀ text, text ≠ "" →
         run_action Number BigInt Date_parse File_defined ActNumber (VString text)
         = Return (VNumber (Number text))) ∧
      (∀ output, is_string output = false →
         run_action Number BigInt Date_parse File_defined ActNumber output
         = Return output).
Proof.
  intros Hn Hk Hc Hw.
  destruct (leaf_attached fuel h ty n "number" ActNumber wrap co Hn Hk eq_refl Hc Hw)
    as (h' & c' & r & m & inner & E & Hr & Hp).
  exists h', c', r, m, inner. split_and!; [done..|].
  intros Number BigInt Date_parse File_defined. simpl. split_and!.
  - done.
  - intros text Hne. by apply String.eqb_neq in Hne as ->.
  - intros output Hs. by destruct output.
Qed.

Lemma number_preprocessing_step_witness :
  ∃ h' c' r m inner,
    enableTypeCoercion 1 [leaf_node "number"] 0 None None = Done (h', c', r) ∧
    h' !! r = Some m ∧ parse m = Coerced ActNumber inner ∧
    run_action sample_Number sample_BigInt sample_Date_parse true ActNumber
      (VString "42") = Return (VNumber (sample_Number "42")).
Proof.
  destruct (number_preprocessing_step 0 [leaf_node "number"] 0 (leaf_node "number")
              None None)
    as (h' & c' & r & m & inner & E & Hr & Hp & Hstep);
    [reflexivity|reflexivity|reflexivity|discriminate|].
  destruct (Hstep sample_Number sample_BigInt sample_Date_parse true)
    as (_ & Htext & _).
  exists h', c', r, m, inner. split_and!; [exact E|exact Hr|exact Hp|].
  apply (Htext "42"). discriminate.
Defined.

(** X8.  A bigint-kind node comes back with the bigint step in front: the
    empty string gives [undefined] without [BigInt] being called, a
    non-empty string [BigInt] accepts gives that integer, a non-empty string
    it rejects makes the step throw (nothing catches the SyntaxError), and a
    value that is not a string is returned unchanged. *)
Theorem bigint_preprocessing_step (fuel : nat) (h : heap) (ty : addr) (n : node)
    (wrap : option addr) (co : option cache_map) :
  h !! ty = Some n → type n = Some "bigint" →
  default ∅ co !! ty = None → (∀ w, wrap = Some w → is_Some (h !! w)) →
  ∃ h' c' r m inner,
    enableTypeCoercion (S fuel) h ty wrap co = Done (h', c', r) ∧
    h' !! r = Some m ∧ parse m = Coerced ActBigint inner ∧
    ∀ Number BigInt Date_parse File_defined,
      run_action Number BigInt Date_parse File_defined ActBigint (VString "")
      = Return VUndefined ∧
      (∀ text z, text ≠ "" → BigInt text = Some z →
         run_action Number BigInt Date_parse File_defined ActBigint (VString text)
         = Return (VBigInt z)) ∧
      (∀ text, text ≠ "" → BigInt text = None →
         ∃ e, run_action Number BigInt Date_parse File_defined ActBigint (VString text)
              = Throw e) ∧
      (∀ output, is_string output = false →
         run_action Number BigInt Date_parse File_defined ActBigint output
         = Return output).
Proof.
  intros Hn Hk Hc Hw.
  destruct (leaf_attached fuel h ty n "bigint" ActBigint wrap co Hn Hk eq_refl Hc Hw)
    as (h' & c' & r & m & inner & E & Hr & Hp).
  exists h', c', r, m, inner. split_and!; [done..|].
  intros Number BigInt Date_parse File_defined. simpl. split_and!.
  - done.
  - intros text z Hne Hb. apply String.eqb_neq in Hne as ->.
    unfold bigint_transform. by rewrite Hb.
  - intros text Hne Hb. apply String.eqb_neq in Hne as ->.
    unfold bigint_transform. rewrite Hb. eauto.
  - intros output Hs. by destruct output.
Qed.

Lemma bigint_preprocessing_step_witness :
  ∃ h' c' r m inner,
    enableTypeCoercion 1 [leaf_node "bigint"] 0 None None = Done (h', c', r) ∧
    h' !! r = Some m ∧ parse m = Coerced ActBigint inner ∧
    ∃ e, run_action sample_Number sample_BigInt sample_Date_parse true ActBigint
           (VString "abc") = Throw e.
Proof.
  destruct (bigint_preprocessing_step 0 [leaf_node "bigint"] 0 (leaf_node "bigint")
              None None)
    as (h' & c' & r & m & inner & E & Hr & Hp & Hstep);
    [reflexivity|reflexivity|reflexivity|discriminate|].
  destruct (Hstep sample_Number sample_BigInt sample_Date_parse true)
    as (_ & _ & Hthrow & _).
  exists h', c', r, m, inner. split_and!; [exact E|exact Hr|exact Hp|].
  apply (Hthrow "abc"); [discriminate|reflexivity].
Defined.

(** X9.  A node of kind string, literal, enum or undefined comes back with
    [coerceString] alone in front: the empty string gives [undefined] and
    every other value, string or not, is returned unchanged. *)
Theorem string_kinds_preprocessing_step (fuel : nat) (h : heap) (ty : addr) (n : node)
    (k : string) (wrap : option addr) (co : option cache_map) :
  h !! ty = Some n → type n = Some k →
  k = "string" ∨ k = "literal" ∨ k = "enum" ∨ k = "undefined" →
  default ∅ co !! ty = None → (∀ w, wrap = Some w → is_Some (h !! w)) →
  ∃ h' c' r m inner,
    enableTypeCoercion (S fuel) h ty wrap co = Done (h', c', r) ∧
    h' !! r = Some m ∧ parse m = Coerced ActString inner ∧
    ∀ Number BigInt Date_parse File_defined,
      run_action Number BigInt Date_parse File_defined ActString (VString "")
      = Return VUndefined ∧
      (∀ output, output ≠ VString "" →
         run_action Number BigInt Date_parse File_defined ActString output
         = Return output).
Proof.
  intros Hn Hk Hkind Hc Hw.
  assert (leaf_action k = Some ActString) as Ha.
  { by destruct Hkind as [->|[->|[->| ->]]]. }
  destruct (leaf_attached fuel h ty n k ActString wrap co Hn Hk Ha Hc Hw)
    as (h' & c' & r & m & inner & E & Hr & Hp).
  exists h', c', r, m, inner. split_and!; [done..|].
  intros Number BigInt Date_parse File_defined. simpl. split; [done|].
  intros output Hne. destruct output as [| |b|s|bits|z|time|name size|items|fields]; try done. simpl.
  destruct (String.eqb_spec s ""); [by subst|done].
Qed.

Lemma string_kinds_preprocessing_step_witness :
  ∃ h' c' r m inner,
    enableTypeCoercion 1 [leaf_node "enum"] 0 None None = Done (h', c', r) ∧
    h' !! r = Some m ∧ parse m = Coerced ActString inner ∧
    run_action sample_Number sample_BigInt sample_Date_parse true ActString
      (VString "a") = Return (VString "a").
Proof.
  destruct (string_kinds_preprocessing_step 0 [leaf_node "enum"] 0 (leaf_node "enum")
              "enum" None None)
    as (h' & c' & r & m & inner & E & Hr & Hp & Hstep);
    [reflexivity|reflexivity|by right; right; left|reflexivity|discriminate|].
  destruct (Hstep sample_Number sample_BigInt sample_Date_parse true) as (_ & Hother).
  exists h', c', r, m, inner. split_and!; [exact E|exact Hr|exact Hp|].
  apply (Hother (VString "a")). discriminate.
Defined.

(** X10.  No step but the bigint step throws, whatever the host and the
    input; the array step always returns an array; and every step but the
    array step returns a value that is not a string unchanged. *)
Theorem steps_return (Number : string -> Z) (BigInt Date_parse : string -> option Z)
    (File_defined : bool) (act : action) (output : value) :
  (act ≠ ActBigint →
   ∃ v, run_action Number BigInt Date_parse File_defined act output = Return v) ∧
  (act = ActArray →
   ∃ items, run_action Number BigInt Date_parse File_defined act output
            = Return (VArray items)) ∧
  (act ≠ ActArray → is_string output = false →
   run_action Number BigInt Date_parse File_defined act output = Return output).
Proof.
  split_and!.
  - intros Hact. destruct act; try done; simpl.
    + destruct output as [| |b|s|bits|z|time|name size|items|fields]; simpl; eauto. destruct (String.eqb s ""); eauto.
    + destruct output as [| |b|s|bits|z|time|name size|items|fields]; simpl; eauto. destruct (String.eqb s ""); eauto.
    + destruct output as [| |b|s|bits|z|time|name size|items|fields]; simpl; eauto. destruct (String.eqb s ""); eauto.
      unfold boolean_transform. destruct (String.eqb s "on"); eauto.
    + destruct output as [| |b|s|bits|z|time|name size|items|fields]; simpl; eauto. destruct (String.eqb s ""); eauto.
      unfold date_transform. destruct (Date_parse s); eauto.
    + unfold array_step.
      destruct (isArray output); eauto.
      destruct (is_undefined output || is_undefined (coerceFile File_defined output));
        eauto.
  - intros ->. simpl. unfold array_step.
    destruct output as [| |b|s|bits|z|time|name size|items|fields]; simpl; eauto.
    destruct (File_defined && String.eqb name "" && N.eqb size 0); simpl; eauto.
  - intros Hact Hs. destruct act; try done; by destruct output.
Qed.

Lemma steps_return_witness :
  ∃ v, run_action sample_Number sample_BigInt sample_Date_parse true ActDate
         (VString "not-a-date") = Return v.
Proof.
  apply (proj1 (steps_return sample_Number sample_BigInt sample_Date_parse true ActDate
                  (VString "not-a-date"))).
  discriminate.
Defined.

(** X11.  [coerceString] in front of another step: in front of any step but
    the array step the two together do what the inner step does alone; in
    front of the array step they differ on the empty string only, which
    becomes the empty array, where the array step alone wraps it. *)
Theorem coerceString_in_front (Number : string -> Z) (BigInt Date_parse : string -> option Z)
    (File_defined : bool) (act : action) (output : value) :
  (act ≠ ActArray →
   run_steps Number BigInt Date_parse File_defined [ActString; act] output
   = run_action Number BigInt Date_parse File_defined act output) ∧
  (output ≠ VString "" →
   run_steps Number BigInt Date_parse File_defined [ActString; ActArray] output
   = run_action Number BigInt Date_parse File_defined ActArray output) ∧
  run_steps Number BigInt Date_parse File_defined [ActString; ActArray] (VString "")
  = Return (VArray []) ∧
  run_action Number BigInt Date_parse File_defined ActArray (VString "")
  = Return (VArray [VString ""]).
Proof.
  assert (∀ a v, run_steps Number BigInt Date_parse File_defined [a] v
                 = run_action Number BigInt Date_parse File_defined a v) as Hone.
  { intros a v. simpl. by destruct (run_action _ _ _ _ a v). }
  assert (output = VString "" ∨ coerceString output None = Return output) as Hcs.
  { destruct output as [| |b|s|bits|z|time|name size|items|fields]; try by right.
    destruct (String.eqb_spec s "") as [->|Hne]; [by left|right].
    simpl. by apply String.eqb_neq in Hne as ->. }
  split_and!.
  - intros Hact. destruct Hcs as [->|Hcs].
    + by destruct act.
    + change (run_steps Number BigInt Date_parse File_defined [ActString; act] output)
        with (match coerceString output None with
              | Return v => run_steps Number BigInt Date_parse File_defined [act] v
              | Throw e => Throw e
              end).
      rewrite Hcs. apply Hone.
  - intros Hne. destruct Hcs as [->|Hcs]; [done|].
    change (run_steps Number BigInt Date_parse File_defined [ActString; ActArray] output)
      with (match coerceString output None with
            | Return v => run_steps Number BigInt Date_parse File_defined [ActArray] v
            | Throw e => Throw e
            end).
    rewrite Hcs. apply Hone.
  - done.
  - done.
Qed.

Lemma coerceString_in_front_witness :
  run_steps sample_Number sample_BigInt sample_Date_parse true
    [ActString; ActBoolean] (VString "on")
  = run_action sample_Number sample_BigInt sample_Date_parse true ActBoolean
      (VString "on").
Proof.
  apply (proj1 (coerceString_in_front sample_Number sample_BigInt sample_Date_parse true
                  ActBoolean (VString "on"))).
  discriminate.
Defined.

(** ** Wrappers, trees and cycles *)

(** X12.  A wrapper over a node of a leaf kind, called without a pending
    wrapper, returns within two levels of recursion a copy of the wrapper
    that has [coerceString] and then the step of the leaf in front of the
    wrapper's own [_parse]; its [wrapped] slot still holds the leaf it was
    given, which gets no replacement of its own in the output. *)
Theorem wrapper_over_leaf (fuel : nat) (h : heap) (ty : addr) (n : node) (k : string)
    (child : addr) (nc : node) (kc : string) (act : action) (co : option cache_map) :
  h !! ty = Some n → type n = Some k → wrapper_kind k = true →
  wrapped n = Some child →
  h !! child = Some nc → type nc = Some kc → leaf_action kc = Some act →
  default ∅ co !! ty = None →
  ∃ h' c' r s inner,
    enableTypeCoercion (S (S fuel)) h ty None co = Done (h', c', r) ∧
    h' !! r = Some (set_parse n (Coerced ActString inner)) ∧
    fronted h' r [ActString; act] s ∧
    h' !! s = Some n.
Proof.
  intros Hn Hk Hwk Hchild Hnc Hkc Hact Hc.
  pose proof (leaf_returns_wrap fuel h child nc kc act ty n None Hnc Hkc Hact
                (lookup_empty _) Hn) as E1.
  assert (set_wrapped n child = n) as Heta.
  { destruct n as [t w e o p rs]. simpl in Hchild. by subst. }
  rewrite Heta in E1.
  set (h1 := h ++ [n; set_parse n (Coerced act (length h))]) in *.
  assert (h1 !! length h = Some n) as L0.
  { unfold h1. by rewrite lookup_app_r, Nat.sub_diag by lia. }
  assert (h1 !! S (length h) = Some (set_parse n (Coerced act (length h)))) as L1.
  { unfold h1. rewrite lookup_app_r by lia.
    by replace (S (length h) - length h) with 1 by lia. }
  pose proof (wrapper_returns _ _ _ _ _ _ co _ _ _ _ Hn Hk Hwk Hchild Hc E1 L1) as E.
  eexists _, _, _, (length h), (S (length h)). split; [exact E|].
  assert ((h1 ++ [set_parse (set_parse n (Coerced act (length h)))
                    (Coerced ActString (S (length h)))]) !! length h1
          = Some (set_parse n (Coerced ActString (S (length h))))) as L2.
  { by rewrite lookup_app_r, Nat.sub_diag by lia. }
  split_and!.
  - exact L2.
  - eapply fronted_cons; [exact L2|reflexivity|].
    eapply fronted_cons; [by apply lookup_app_l_Some|reflexivity|constructor].
  - by apply lookup_app_l_Some.
Qed.

Lemma wrapper_over_leaf_witness :
  ∃ h' c' r s inner,
    enableTypeCoercion 2 optional_number 1 None None = Done (h', c', r) ∧
    h' !! r = Some (set_parse (wrapper_node "optional" 0) (Coerced ActString inner)) ∧
    fronted h' r [ActString; ActNumber] s ∧
    h' !! s = Some (wrapper_node "optional" 0).
Proof.
  apply (wrapper_over_leaf 0 optional_number 1 (wrapper_node "optional" 0) "optional" 0
           (leaf_node "number") "number" ActNumber None); reflexivity.
Defined.

(** X13.  On a schema that is a tree of height at most [d] under the node,
    every node having the field its kind reads, the call returns within
    depth [d], whatever the cache and for any pending wrapper of the store. *)
Theorem acyclic_schema_returns (h : heap) (d fuel : nat) (ty : addr)
    (wrap : option addr) (co : option cache_map) :
  tree h d ty → (∀ w, wrap = Some w → is_Some (h !! w)) → d ≤ fuel →
  ∃ h' c' r, enableTypeCoercion fuel h ty wrap co = Done (h', c', r).
Proof.
  intros Ht Hw Hfuel.
  destruct (tree_returns h d ty Ht h wrap co (grows_refl h) Hw) as [[[h' c'] r] E].
  exists h', c', r. by eapply enableTypeCoercion_mono.
Qed.

Lemma object_a_b_tree : tree object_a_b 2 2.
Proof.
  eapply tree_node; [reflexivity|by split_and!|].
  intros c Hc. simpl in Hc.
  apply elem_of_cons in Hc as [->|Hc].
  - eapply tree_node; [reflexivity|by split_and!|]. intros c Hc. inversion Hc.
  - apply list_elem_of_singleton in Hc as ->.
    eapply tree_node; [reflexivity|by split_and!|]. intros c Hc. inversion Hc.
Defined.

Lemma acyclic_schema_returns_witness :
  ∃ h' c' r, enableTypeCoercion 5 object_a_b 2 None None = Done (h', c', r).
Proof.
  apply (acyclic_schema_returns object_a_b 2 5 2 None None).
  - apply object_a_b_tree.
  - discriminate.
  - lia.
Defined.

(** X14.  A call on a node from which a node reachable from itself can be
    reached never returns, at any depth, with any pending wrapper and with
    any cache that holds no replacement for the nodes on the way: the nodes
    the called node reaches and that reach the cycle.  What the cache holds
    for other nodes does not matter. *)
Theorem schema_over_cycle_never_returns (h : heap) (ty b : addr) (wrap : option addr)
    (co : option cache_map) (fuel : nat) :
  rtc (edge h) ty b → tc (edge h) b b →
  (∀ a, rtc (edge h) ty a → rtc (edge h) a b → default ∅ co !! a = None) →
  ∀ x, enableTypeCoercion fuel h ty wrap co ≠ Done x.
Proof.
  intros Hreach Hcyc Hclear.
  apply (proj1 (trapped_never_returns h
                  (λ a, rtc (edge h) ty a ∧ rtc (edge h) a b)
                  (λ a '(conj Hta Hab),
                     match cycle_trap h b Hcyc a Hab with
                     | ex_intro _ c (conj Hac Hcb) =>
                         ex_intro _ c (conj Hac (conj (rtc_r _ _ _ Hta Hac) Hcb))
                     end)
                  fuel)).
  - apply grows_refl.
  - split; [apply rtc_refl|done].
  - intros a [Hta Hab]. by apply Hclear.
Qed.

Lemma optional_self_object_edges :
  edge optional_self_object 1 0 ∧ edge optional_self_object 0 0.
Proof.
  split.
  - exists (wrapper_node "optional" 0). split; [reflexivity|apply list_elem_of_here].
  - exists (object_node [("self", 0)]). split; [reflexivity|apply list_elem_of_here].
Defined.

Lemma two_optionals_edges :
  edge two_optionals_self_object 1 0 ∧ edge two_optionals_self_object 0 0.
Proof.
  split.
  - exists (wrapper_node "optional" 0). split; [reflexivity|apply list_elem_of_here].
  - exists (object_node [("self", 0)]). split; [reflexivity|apply list_elem_of_here].
Defined.

(** From the first optional only the optional itself and the object are
    reached, not the second optional. *)
Lemma two_optionals_reach (x a : addr) :
  rtc (edge two_optionals_self_object) x a → x = 1 ∨ x = 0 → a = 1 ∨ a = 0.
Proof.
  induction 1 as [|x y z Hxy _ IH]; [done|].
  intros Hx. apply IH. right.
  destruct Hxy as (n & Hn & Hy).
  destruct Hx as [-> | ->]; injection Hn as <-;
    by apply list_elem_of_singleton in Hy.
Qed.

Lemma schema_over_cycle_never_returns_witness :
  rtc (edge two_optionals_self_object) 1 0 ∧ tc (edge two_optionals_self_object) 0 0 ∧
  ∀ x, enableTypeCoercion 64 two_optionals_self_object 1 None (Some {[2 := 7]})
       ≠ Done x.
Proof.
  split_and!.
  - apply rtc_once, two_optionals_edges.
  - apply tc_once, two_optionals_edges.
  - apply (schema_over_cycle_never_returns two_optionals_self_object 1 0 None
             (Some {[2 := 7]}) 64).
    + apply rtc_once, two_optionals_edges.
    + apply tc_once, two_optionals_edges.
    + intros a Ha _. simpl.
      destruct (two_optionals_reach 1 a Ha (or_introl eq_refl)) as [-> | ->];
        reflexivity.
Defined.

(** When the call returns: the replacement of a node has the node's kind and its other
    properties: for a node of a kind with a branch, called without a pending
    wrapper and with nothing cached for it, the node returned has the same
    [type] and the same remaining properties, provided that the wrapped
    child of a wrapper is itself of a kind with a branch; all that differs
    is among [wrapped], [entries], [options] and [_parse]. *)
Lemma replacement_keeps_kind_returned (fuel : nat) (h : heap) (ty : addr) (n : node)
    (k : string) (co : option cache_map) (h' : heap) (c' : cache_map) (r : addr) :
  h !! ty = Some n → type n = Some k → recognized k = true →
  (∀ child, wrapper_kind k = true → wrapped n = Some child → recognized_at h child) →
  default ∅ co !! ty = None →
  enableTypeCoercion fuel h ty None co = Done (h', c', r) →
  ∃ m, h' !! r = Some m ∧ type m = type n ∧ rest m = rest n.
Proof.
  intros Hn Hk Hrec Hchild Hc H. destruct fuel as [|fuel]; [done|].
  simpl in H. unfold body in H. rewrite Hc, Hn, Hk in H.
  destruct (dispatch (enableTypeCoercion fuel) h ty n k None (default ∅ co))
    as [[[h1 c1] s]| |] eqn:E; simpl in H; try done.
  injection H as <- <- <-.
  unfold recognized in Hrec. revert E. unfold dispatch.
  assert (∀ h0 s0 n0 act h2 r2, h0 !! s0 = Some n0 →
            coerce_wrapped h0 None s0 act = Done (h2, r2) →
            h2 !! r2 = Some (set_parse n0 (Coerced act s0))) as Hcw.
  { intros h0 s0 n0 act h2 r2 Hs0 Hcw.
    rewrite (coerce_wrapped_None _ _ n0) in Hcw by done. injection Hcw as <- <-.
    by rewrite lookup_app_r, Nat.sub_diag by lia. }
  destruct (leaf_action k) as [act|].
  { intros E. bind_inv E. injection E as <- <- <-.
    eexists. split; [by eapply Hcw|done]. }
  destruct (wrapper_kind k).
  { destruct (wrapped n) as [child|]; [|done]. intros E.
    destruct (enableTypeCoercion fuel h child (Some ty) None)
      as [[[h2 c2] r2]| |] eqn:E1; simpl in E; try done.
    bind_inv E. injection E as <- <- <-.
    destruct (Hchild child eq_refl eq_refl) as (nc & kc & Hnc & Hkc & Hrc).
    destruct (pending_wrapper_kept _ _ _ _ _ _ _ _ _ _ Hnc Hkc Hrc Hn E1)
      as (n1 & cw & Hr2 & Heq).
    eexists. split; [by eapply Hcw|].
    split; [apply (f_equal type) in Heq|apply (f_equal rest) in Heq]; exact Heq. }
  destruct (String.eqb k "union").
  { destruct (options n) as [opts|]; [|done]. intros E.
    bind_inv E. unfold alloc in E. bind_inv E. injection E as <- <- <-.
    eexists. split.
    - eapply Hcw; [|eassumption].
      by rewrite lookup_app_r, Nat.sub_diag by lia.
    - done. }
  destruct (String.eqb k "object").
  { destruct (entries n) as [ents|]; [|done]. intros E.
    destruct (map_entries (enableTypeCoercion fuel) h (default ∅ co) ents)
      as [[[h2 c2] rs]| |]; simpl in E; try done.
    injection E as <- <- <-.
    eexists. split; [by rewrite lookup_app_r, Nat.sub_diag by lia|done]. }
  exfalso. rewrite !orb_false_r in Hrec.
  apply bool_decide_eq_true in Hrec. by destruct Hrec.
Qed.


(** X16.  A node whose kind reads a field it does not have (a wrapper
    without [wrapped], a union without [options], an object without
    [entries]) makes the call throw a TypeError, and the error surfaces
    through any stack of wrappers above the node. *)
Theorem missing_field_throws (fuel : nat) (h : heap) (a : addr) (ks : list string)
    (core : addr) (n : node) (k : string) (wrap : option addr) :
  stack h a ks core → h !! core = Some n → type n = Some k →
  wrapper_kind k = true ∧ wrapped n = None
  ∨ k = "union" ∧ options n = None
  ∨ k = "object" ∧ entries n = None →
  length ks < fuel →
  enableTypeCoercion fuel h a wrap None = TypeError.
Proof.
  intros Hst Hn Hk Hbad. revert fuel wrap.
  induction Hst as [core|a na ka child ks core Hna Hka Hwk Hchild Hst IH];
    intros fuel wrap Hfuel.
  - destruct fuel as [|fuel]; [simpl in Hfuel; lia|].
    simpl. unfold body. simpl. rewrite lookup_empty, Hn, Hk. unfold dispatch.
    destruct Hbad as [[Hw Hno]|[[-> Hno]|[-> Hno]]].
    + by rewrite (wrapper_kind_not_leaf _ Hw), Hw, Hno.
    + simpl. by rewrite Hno.
    + simpl. by rewrite Hno.
  - destruct fuel as [|fuel]; [simpl in Hfuel; lia|].
    simpl. unfold body. simpl. rewrite lookup_empty, Hna, Hka. unfold dispatch.
    rewrite (wrapper_kind_not_leaf _ Hwk), Hwk, Hchild.
    rewrite (IH Hn fuel (Some a)); [done|]. simpl in Hfuel. lia.
Qed.

Lemma missing_field_throws_witness :
  enableTypeCoercion 2
    [Node (Some "nullable") None None None (Native 0) []; wrapper_node "optional" 0]
    1 None None = TypeError.
Proof.
  apply (missing_field_throws 2 _ 1 ["optional"] 0
           (Node (Some "nullable") None None None (Native 0) []) "nullable" None).
  - eapply stack_wrapper; [reflexivity..|]. constructor.
  - reflexivity.
  - reflexivity.
  - left. split; reflexivity.
  - simpl. lia.
Defined.

(** X17.  Every step is idempotent: run twice in a row, as when a schema
    that was transformed is transformed again, it does what it does run
    once, for every host and every input. *)
Theorem steps_idempotent (Number : string -> Z) (BigInt Date_parse : string -> option Z)
    (File_defined : bool) (act : action) (output : value) :
  run_steps Number BigInt Date_parse File_defined [act; act] output
  = run_action Number BigInt Date_parse File_defined act output.
Proof.
  destruct act; simpl.
  - destruct output as [| |b|s|bits|z|time|name size|items|fields]; try done.
    simpl. destruct (String.eqb s "") eqn:Hs; [done|]. simpl. by rewrite Hs.
  - destruct output as [| |b|s|bits|z|time|name size|items|fields]; try done.
    simpl. by destruct (String.eqb s "").
  - destruct output as [| |b|s|bits|z|time|name size|items|fields]; try done.
    simpl. destruct (String.eqb s "") eqn:Hs; [done|].
    unfold boolean_transform. destruct (String.eqb s "on") eqn:Hon; [done|].
    simpl. by rewrite Hs, Hon.
  - destruct output as [| |b|s|bits|z|time|name size|items|fields]; try done.
    simpl. destruct (String.eqb s "") eqn:Hs; [done|].
    unfold date_transform. destruct (Date_parse s) eqn:Hd; [done|].
    simpl. by rewrite Hs, Hd.
  - destruct output as [| |b|s|bits|z|time|name size|items|fields]; try done.
    simpl. destruct (String.eqb s "") eqn:Hs; [done|].
    unfold bigint_transform. by destruct (BigInt s).
  - unfold array_step.
    destruct output as [| |b|s|bits|z|time|name size|items|fields]; try done.
    simpl. by destruct (File_defined && String.eqb name "" && N.eqb size 0).
Qed.

(** X18.  Transforming the replacement of a leaf again, with a fresh cache,
    does not give the replacement back: it builds one more node, with the
    step of the leaf twice in front of the leaf's own [_parse]. *)
Theorem leaf_transformed_twice (fuel fuel' : nat) (h : heap) (ty : addr) (n : node)
    (k : string) (act : action) (co : option cache_map) :
  h !! ty = Some n → type n = Some k → leaf_action k = Some act →
  default ∅ co !! ty = None →
  ∃ h1 c1 r1 h2 c2 r2,
    enableTypeCoercion (S fuel) h ty None co = Done (h1, c1, r1) ∧
    enableTypeCoercion (S fuel') h1 r1 None None = Done (h2, c2, r2) ∧
    r2 ≠ r1 ∧ fronted h2 r2 [act; act] ty ∧ h2 !! ty = Some n.
Proof.
  intros Hn Hk Ha Hc.
  pose proof (leaf_returns fuel h ty n k act co Hn Hk Ha Hc) as E1.
  set (h1 := h ++ [set_parse n (Coerced act ty)]) in *.
  assert (h1 !! length h = Some (set_parse n (Coerced act ty))) as L1.
  { unfold h1. by rewrite lookup_app_r, Nat.sub_diag by lia. }
  pose proof (leaf_returns fuel' h1 (length h) _ k act None L1 Hk Ha (lookup_empty _))
    as E2.
  assert (length h1 = S (length h)) as Hlen.
  { unfold h1. rewrite length_app. simpl. lia. }
  eexists _, _, _, _, _, _. split; [exact E1|]. split; [exact E2|].
  assert ((h1 ++ [set_parse (set_parse n (Coerced act ty)) (Coerced act (length h))])
            !! length h1
          = Some (set_parse (set_parse n (Coerced act ty)) (Coerced act (length h))))
    as L2.
  { by rewrite lookup_app_r, Nat.sub_diag by lia. }
  split_and!.
  - lia.
  - eapply fronted_cons; [exact L2|reflexivity|].
    eapply fronted_cons; [by apply lookup_app_l_Some|reflexivity|constructor].
  - apply lookup_app_l_Some. unfold h1. by apply lookup_app_l_Some.
Qed.

Lemma leaf_transformed_twice_witness :
  ∃ h1 c1 r1 h2 c2 r2,
    enableTypeCoercion 1 [leaf_node "date"] 0 None None = Done (h1, c1, r1) ∧
    enableTypeCoercion 1 h1 r1 None None = Done (h2, c2, r2) ∧
    r2 ≠ r1 ∧ fronted h2 r2 [ActDate; ActDate] 0 ∧
    h2 !! 0 = Some (leaf_node "date").
Proof.
  apply (leaf_transformed_twice 0 0 [leaf_node "date"] 0 (leaf_node "date") "date"
           ActDate None); reflexivity.
Defined.

(** ** Stacks of wrappers over any core *)




Section RestackOver.
Variable h : heap.
Variable core : addr.
Variable ncore : node.
Variable kcore : string.
Hypothesis core_node : h !! core = Some ncore.
Hypothesis core_kind : type ncore = Some kcore.
Hypothesis core_recognized : recognized kcore = true.
Hypothesis core_no_wrapper : wrapper_kind kcore = false.


End RestackOver.





(** ** Trees are rebuilt *)

Lemma tree_call_returns (fuel d : nat) (h : heap) (ty : addr) (wrap : option addr)
    (co : option cache_map) :
  tree h d ty → (∀ w, wrap = Some w → is_Some (h !! w)) → d ≤ fuel →
  ∃ h' c' r, enableTypeCoercion fuel h ty wrap co = Done (h', c', r).
Proof.
  intros Ht Hw Hfuel.
  destruct (tree_returns h d ty Ht h wrap co (grows_refl h) Hw) as [[[h' c'] r] E].
  exists h', c', r. by eapply enableTypeCoercion_mono.
Qed.



Lemma optional_nullable_number_tree : tree optional_nullable_number 3 2.
Proof.
  eapply tree_node; [reflexivity|by split_and!; [eexists|..]|].
  intros c Hc. apply list_elem_of_singleton in Hc as ->.
  eapply tree_node; [reflexivity|by split_and!; [eexists|..]|].
  intros c Hc. apply list_elem_of_singleton in Hc as ->.
  eapply tree_node; [reflexivity|by split_and!|]. intros c Hc. inversion Hc.
Defined.

(** X3.  A node of a kind with a branch is never handed back: on a schema
    that is a tree under the node, with nothing cached for the node, the
    call returns a node it built, records it in the cache for the node, and
    leaves the node itself in the store as it was. *)
Theorem recognized_node_replaced (fuel d : nat) (h : heap) (ty : addr) (n : node)
    (k : string) (wrap : option addr) (co : option cache_map) :
  h !! ty = Some n → type n = Some k → recognized k = true →
  default ∅ co !! ty = None →
  tree h d ty → (∀ w, wrap = Some w → is_Some (h !! w)) → d ≤ fuel →
  ∃ h' c' r,
    enableTypeCoercion fuel h ty wrap co = Done (h', c', r) ∧
    length h ≤ r < length h' ∧ r ≠ ty ∧ c' !! ty = Some r ∧ h' !! ty = Some n.
Proof.
  intros Hn Hk Hrec Hc Ht Hw Hfuel.
  destruct (tree_call_returns fuel d h ty wrap co Ht Hw Hfuel) as (h' & c' & r & E).
  exists h', c', r. split; [exact E|].
  by eapply recognized_node_replaced_returned.
Qed.

Lemma recognized_node_replaced_witness :
  ∃ h' c' r,
    enableTypeCoercion 2 object_a_b 2 None None = Done (h', c', r) ∧
    length object_a_b ≤ r < length h' ∧ r ≠ 2 ∧ c' !! 2 = Some r ∧
    h' !! 2 = Some (object_node [("a", 0); ("b", 1)]).
Proof.
  apply (recognized_node_replaced 2 2 object_a_b 2 (object_node [("a", 0); ("b", 1)])
           "object" None None).
  - reflexivity.
  - reflexivity.
  - reflexivity.
  - reflexivity.
  - apply object_a_b_tree.
  - discriminate.
  - lia.
Defined.



(** X5.  An object schema that is a tree comes back as a copy of itself
    with new entries: the same field names in the same order, the kind, the
    [_parse] and the other properties of the object itself (no step is put
    in front of an object), and, when a wrapper is pending, inside a copy of
    that wrapper that keeps the wrapper's [_parse].  A field whose node
    passes through, with nothing cached for it, holds that very node in the
    copy. *)
Theorem object_rebuilt (fuel d : nat) (h : heap) (ty : addr) (n : node)
    (ents : list (string * addr)) (wrap : option addr) (co : option cache_map) :
  h !! ty = Some n → type n = Some "object" → entries n = Some ents →
  default ∅ co !! ty = None →
  tree h d ty → (∀ w, wrap = Some w → is_Some (h !! w)) → d ≤ fuel →
  ∃ h' c' r ents' shape m,
    enableTypeCoercion fuel h ty wrap co = Done (h', c', r) ∧
    h' !! shape = Some m ∧ entries m = Some ents' ∧
    type m = type n ∧ parse m = parse n ∧ rest m = rest n ∧
    ents'.*1 = ents.*1 ∧
    (wrap = None → r = shape) ∧
    (∀ w nw, wrap = Some w → h !! w = Some nw →
             ∃ mw, h' !! r = Some mw ∧ spliced_copy mw nw shape) ∧
    ∀ i key e ne, ents !! i = Some (key, e) → h !! e = Some ne →
      passes_through ne = true → default ∅ co !! e = None →
      ents' !! i = Some (key, e).
Proof.
  intros Hn Hk He Hc Ht Hw Hfuel.
  destruct (tree_call_returns fuel d h ty wrap co Ht Hw Hfuel) as (h' & c' & r & E).
  destruct (object_rebuilt_returned _ _ _ _ _ _ _ _ _ _ Hn Hk He Hc E)
    as (ents' & shape & Hshape & Hkeys & Hnone & Hsome & Hpass).
  exists h', c', r, ents', shape, (set_entries n ents').
  split_and!; try done.
  intros w nw Hwrap Hnw. exists (set_wrapped nw shape).
  split; [by eapply Hsome|by repeat split].
Qed.

Lemma object_rebuilt_witness :
  ∃ h' c' r ents' shape m,
    enableTypeCoercion 2 object_a_b 2 None None = Done (h', c', r) ∧
    h' !! shape = Some m ∧ entries m = Some ents' ∧
    type m = Some "object" ∧ parse m = Native 0 ∧
    ents'.*1 = ["a"; "b"] ∧ r = shape.
Proof.
  destruct (object_rebuilt 2 2 object_a_b 2 (object_node [("a", 0); ("b", 1)])
              [("a", 0); ("b", 1)] None None)
    as (h' & c' & r & ents' & shape & m & E & Hm & He & Ht & Hp & _ & Hkeys & Hr & _).
  - reflexivity.
  - reflexivity.
  - reflexivity.
  - reflexivity.
  - apply object_a_b_tree.
  - discriminate.
  - lia.
  - exists h', c', r, ents', shape, m.
    split_and!; [exact E|exact Hm|exact He|exact Ht|exact Hp|exact Hkeys|by apply Hr].
Defined.



(** X15.  The replacement of a node has the node's kind and its other
    properties: for a node of a kind with a branch, on a schema that is a
    tree, called without a pending wrapper and with nothing cached for it,
    the call returns a node with the same [type] and the same remaining
    properties, provided that the wrapped child of a wrapper is itself of a
    kind with a branch; all that differs is among [wrapped], [entries],
    [options] and [_parse]. *)
Theorem replacement_keeps_kind (fuel d : nat) (h : heap) (ty : addr) (n : node)
    (k : string) (co : option cache_map) :
  h !! ty = Some n → type n = Some k → recognized k = true →
  (∀ child, wrapper_kind k = true → wrapped n = Some child → recognized_at h child) →
  default ∅ co !! ty = None → tree h d ty → d ≤ fuel →
  ∃ h' c' r m,
    enableTypeCoercion fuel h ty None co = Done (h', c', r) ∧
    h' !! r = Some m ∧ type m = type n ∧ rest m = rest n.
Proof.
  intros Hn Hk Hrec Hchild Hc Ht Hfuel.
  destruct (tree_call_returns fuel d h ty None co Ht) as (h' & c' & r & E);
    [done|done|].
  destruct (replacement_keeps_kind_returned _ _ _ _ _ _ _ _ _ Hn Hk Hrec Hchild Hc E)
    as (m & ?).
  by exists h', c', r, m.
Qed.

Lemma replacement_keeps_kind_witness :
  ∃ h' c' r m,
    enableTypeCoercion 3 optional_nullable_number 2 None None = Done (h', c', r) ∧
    h' !! r = Some m ∧ type m = Some "optional" ∧ rest m = [].
Proof.
  apply (replacement_keeps_kind 3 3 optional_nullable_number 2
           (wrapper_node "optional" 1) "optional" None).
  - reflexivity.
  - reflexivity.
  - reflexivity.
  - intros child _ [= <-].
    exists (wrapper_node "nullable" 0), "nullable". split_and!; reflexivity.
  - reflexivity.
  - apply optional_nullable_number_tree.
  - lia.
Defined.
